(** * bloomstack_core.hook_events.utils : a shallow embedding

    The Python module [bloomstack_core/hook_events/utils.py] is a set of
    document hooks and remote procedures running against the Frappe document
    store.  Each function is transcribed below as a Rocq function over an
    explicit model of the part of the store it reads or writes:

    - [Host]     : values, messages, exceptions and results shared by all hooks;
    - [License]  : the license hooks ([validate_entity_license],
                   [validate_default_license], [validate_expired_licenses],
                   [get_default_license]);
    - [Billable] : the billable cascade ([update_timesheet_logs] and helpers);
    - [Linked]   : the linked-document traversal ([get_linked_documents]).

    The theorems about each part follow the definitions. *)

From Stdlib Require Import ZArith Lia.
From stdpp Require Import base option list strings gmap fin_maps fin_sets sorting.

(* ===================================================================== *)
(** * Host framework: values, messages, exceptions                        *)
(* ===================================================================== *)

Module Host.

(** Dates are [datetime.date] values; they are represented by their
    proleptic ordinal (a day number), so that [<] on dates is [<] on [Z]
    and a difference of dates is a number of days. *)
Definition date := Z.

(** A Python value that is either [None] or a [str]. *)
Inductive pyval : Type :=
| PNone
| PStr (s : string).

(** Python truthiness of such a value: [None] and [''] are falsy. *)
Definition truthy (v : pyval) : bool :=
  match v with
  | PNone => false
  | PStr s => negb (String.eqb s "")
  end.

(** Truthiness of an integer (a Check field holds 0 or 1). *)
Definition truthy_int (z : Z) : bool := negb (z =? 0)%Z.

(** Arguments substituted in a message template by [str.format]. *)
Inductive arg : Type :=
| AStr (s : string)
| AInt (z : Z)
| ADate (d : date)
| ABold (a : arg).          (* frappe.bold(a) *)

(** A user-facing message: [_(template).format(args...)]. *)
Record message : Type := Message { template : string; args : list arg }.

(** Exceptions the hooks can leave with.  [ValidationError] is what
    [frappe.throw] raises; [DoesNotExistError] is what [frappe.get_doc]
    throws for a missing document; [TypeError] is Python's own. *)
Inductive exn : Type :=
| ValidationError (m : message)
| DoesNotExistError (doctype name : string)
| TypeError
| DatabaseError (doctype field : string).

Inductive result (A : Type) : Type :=
| Ok (a : A)
| Raise (e : exn).
Arguments Ok {A} a.
Arguments Raise {A} e.

(** A hook that ends in an exception, of whatever class, blocks the
    save: the exception thrown by [frappe.throw] or by [frappe.get_doc],
    and an uncaught Python error alike. *)
Definition is_hard_rejection {A} (r : result A) : Prop :=
  ∃ e, r = Raise e.

(** Modelled from the spec: [frappe.utils.date_diff] is a host function
    that is not part of this module; it returns the number of days from
    its second argument to its first. *)
Definition date_diff (d1 d2 : date) : Z := (d1 - d2)%Z.

End Host.

(* ===================================================================== *)
(** * License hooks                                                       *)
(* ===================================================================== *)

Module License.
Import Host.

(** A row of the [licenses] child table of a party. *)
Record license_row : Type := LicenseRow {
  idx : Z;
  license : string;
  is_default : Z;
  license_expiry_date : option date
}.

(** A party document (Customer, Supplier, Company). *)
Record party : Type := Party {
  name : string;
  licenses : list license_row
}.

(** The fields of a Compliance Info record read by the hooks. *)
Record compliance_info : Type := ComplianceInfo {
  ci_license_expiry_date : option date;
  ci_license_number : string
}.

(** The part of the document store read by the license hooks: party
    documents by (doctype, name) and Compliance Info records by name. *)
Record store : Type := Store {
  parties : gmap (string * string) party;
  compliance : gmap string compliance_info
}.

Definition set_default (r : license_row) : license_row :=
  {| idx := idx r; license := license r; is_default := 1;
     license_expiry_date := license_expiry_date r |}.

Definition set_licenses (doc : party) (ls : list license_row) : party :=
  {| name := name doc; licenses := ls |}.

(** ** get_default_license (lines 65-79) *)

Definition get_default_license (st : store) (party_type party_name : string)
  : result pyval :=
  match parties st !! (party_type, party_name) with
  | None => Raise (DoesNotExistError party_type party_name)
  | Some doc =>
      let licenses := licenses doc in
      match licenses with
      | [] => Ok PNone                                  (* if not licenses: return *)
      | _ :: _ =>
          match List.find (fun l => truthy_int (is_default l)) licenses with
          | None => Ok (PStr "")                        (* find(...) or '' *)
          | Some default_license => Ok (PStr (license default_license))
          end
      end
  end.

(** ** validate_entity_license (lines 17-32)

    The result is the returned value together with the messages printed
    with [frappe.msgprint], in order. *)

Definition msg_unverifiable (license_number : string) : message :=
  Message "We could not verify the status of license number {0}, Proceed with Caution."
          [ABold (AStr license_number)].

Definition msg_expired_on (party_name license_number : string) (d : date) : message :=
  Message "Our records indicate {0}'s license number {1} has expired on {2}, Proceed with Caution."
          [ABold (AStr party_name); ABold (AStr license_number); ABold (ADate d)].

Definition validate_entity_license (today : date) (st : store)
    (party_type party_name : string) : result (pyval * list message) :=
  match get_default_license st party_type party_name with
  | Raise e => Raise e
  | Ok license_record =>
      if negb (truthy license_record) then Ok (PNone, [])
      else
        match license_record with
        | PNone => Ok (PNone, [])
        | PStr record_name =>
            (* frappe.db.get_value returns None for a missing record, and
               unpacking None into two names raises TypeError *)
            match compliance st !! record_name with
            | None => Raise TypeError
            | Some ci =>
                let license_number := ci_license_number ci in
                match ci_license_expiry_date ci with
                | None =>
                    Ok (license_record, [msg_unverifiable license_number])
                | Some license_expiry_date =>
                    if (license_expiry_date <? today)%Z
                    then Ok (license_record,
                             [msg_expired_on party_name license_number license_expiry_date])
                    else Ok (license_record, [])
                end
            end
        end
  end.

(** ** validate_default_license (lines 35-52)

    The hook mutates [doc] in place; the model returns the document as it
    is when the hook returns, or the exception raised. *)

Definition msg_duplicates : message :=
  Message "Please remove duplicate licenses before proceeding" [].

Definition msg_no_default : message :=
  Message "There must be atleast one default license, found none" [].

Definition msg_many_defaults (doc_name : string) (n : nat) : message :=
  Message "There can be only one default license for {0}, found {1}"
          [AStr doc_name; AInt (Z.of_nat n)].

Definition validate_default_license (doc : party) : result party :=
  let unique_licenses : list string :=
    elements (list_to_set (C := gset string) (map license (licenses doc))) in
  if negb (length (licenses doc) =? length unique_licenses) then
    Raise (ValidationError msg_duplicates)
  else if length (licenses doc) =? 1 then
    Ok (set_licenses doc (alter set_default 0 (licenses doc)))
  else if 1 <? length (licenses doc) then
    let default_licenses :=
      List.filter (fun l => truthy_int (is_default l)) (licenses doc) in
    match default_licenses with
    | [] => Raise (ValidationError msg_no_default)
    | _ =>
        if 1 <? length default_licenses then
          Raise (ValidationError
                   (msg_many_defaults (name doc) (length default_licenses)))
        else Ok doc
    end
  else Ok doc.

(** ** validate_expired_licenses (lines 55-62)

    The result is the document after the hook and the messages printed. *)

Definition msg_expired_days_ago (row : license_row) (expired_since : Z) : message :=
  Message "Row #{0}: License {1} has expired {2} days ago"
          [AInt (idx row); ABold (AStr (license row)); ABold (AInt expired_since)].

Definition expired_row_messages (today : date) (row : license_row) : list message :=
  match license_expiry_date row with
  | None => []
  | Some d =>
      if (d <? today)%Z
      then [msg_expired_days_ago row (date_diff today d)]
      else []
  end.

Fixpoint validate_expired_rows (today : date) (rows : list license_row)
  : list message :=
  match rows with
  | [] => []
  | row :: rest => expired_row_messages today row ++ validate_expired_rows today rest
  end.

Definition validate_expired_licenses (today : date) (doc : party)
  : result (party * list message) :=
  Ok (doc, validate_expired_rows today (licenses doc)).

(** ** Specification devices *)

(** The rows of a party flagged default. *)
Definition defaults (doc : party) : list license_row :=
  List.filter (λ l, truthy_int (is_default l)) (licenses doc).

(** A row is expired when its expiry date is set and strictly before
    today. *)
Definition expired (today : date) (row : license_row) : Prop :=
  ∃ d, license_expiry_date row = Some d ∧ (d < today)%Z.

#[export] Instance expired_dec today row : Decision (expired today row).
Proof.
  unfold expired. destruct (license_expiry_date row) as [d|].
  - destruct (decide (d < today)%Z); [left; by exists d|right].
    intros (d' & [= <-] & ?). lia.
  - right. by intros (d' & ? & ?).
Defined.

(** The warning the spec asks for, for an expired row: row index,
    license id, and the days from the expiry date to today. *)
Definition expiry_warning (today : date) (row : license_row) : message :=
  Message "Row #{0}: License {1} has expired {2} days ago"
          [AInt (idx row); ABold (AStr (license row));
           ABold (AInt (today - default today (license_expiry_date row))%Z)].

End License.

(* ===================================================================== *)
(** * Billable cascade                                                    *)
(* ===================================================================== *)

Module Billable.
Import Host.

(** Rows of the three tables the cascade touches.  A table is keyed by
    the document name (the primary key); an unset Link field is [""]. *)
Record project : Type := Project {
  project_type : string;
  project_template : string;
  project_billable : Z
}.

Record task : Type := Task {
  task_project : string;
  task_billable : Z
}.

Record timesheet_detail : Type := TimesheetDetail {
  td_project : string;
  td_task : string;
  td_billable : Z
}.

(** Calls made to the document store, in the order they are made. *)
Inductive call : Type :=
| GetAll (doctype field value : string)
| GetDoc (doctype name : string)
| Save (doctype name : string)
| SetValue (doctype name field : string) (value : Z).

Record db : Type := Db {
  projects : gmap string project;
  tasks : gmap string task;
  timesheet_details : gmap string timesheet_detail;
  calls : list call
}.

(** Host calls run in a state-and-exception monad over [db]. *)
Definition M (A : Type) : Type := db → result (A * db).

Definition ret {A} (a : A) : M A := λ s, Ok (a, s).

Definition bind {A B} (m : M A) (k : A → M B) : M B :=
  λ s, match m s with
       | Ok (a, s') => k a s'
       | Raise e => Raise e
       end.

Definition raise {A} (e : exn) : M A := λ _, Raise e.

#[export] Instance M_ret : MRet M := @ret.
#[export] Instance M_bind : MBind M := λ A B k m, bind m k.

(** [for x in l: body x] *)
Fixpoint for_each {A} (l : list A) (body : A → M unit) : M unit :=
  match l with
  | [] => ret tt
  | x :: rest => body x ;; for_each rest body
  end.

(** [[f x for x in l]] for an effectful [f] *)
Fixpoint map_m {A B} (f : A → M B) (l : list A) : M (list B) :=
  match l with
  | [] => ret []
  | x :: rest =>
      y ← f x;
      ys ← map_m f rest;
      ret (y :: ys)
  end.

Definition gets {A} (f : db → A) : M A := λ s, Ok (f s, s).

Definition modify (f : db → db) : M unit := λ s, Ok (tt, f s).

Definition set_projects (t : gmap string project) (s : db) : db :=
  {| projects := t; tasks := tasks s;
     timesheet_details := timesheet_details s; calls := calls s |}.

Definition set_tasks (t : gmap string task) (s : db) : db :=
  {| projects := projects s; tasks := t;
     timesheet_details := timesheet_details s; calls := calls s |}.

Definition set_timesheet_details (t : gmap string timesheet_detail) (s : db) : db :=
  {| projects := projects s; tasks := tasks s;
     timesheet_details := t; calls := calls s |}.

Definition set_calls (l : list call) (s : db) : db :=
  {| projects := projects s; tasks := tasks s;
     timesheet_details := timesheet_details s; calls := l |}.

Definition log (c : call) : M unit :=
  modify (λ s, set_calls (calls s ++ [c]) s).

(** Modelled from the spec: [frappe.scrub] is a host function that is not
    part of this module; it turns a doctype name into a field name:
    spaces and dashes become underscores and letters are lowered. *)
Definition scrub_char (c : Ascii.ascii) : Ascii.ascii :=
  let n := Ascii.nat_of_ascii c in
  if (n =? 32) || (n =? 45) then Ascii.ascii_of_nat 95
  else if (65 <=? n) && (n <=? 90) then Ascii.ascii_of_nat (n + 32)
  else c.

Fixpoint scrub (txt : string) : string :=
  match txt with
  | EmptyString => EmptyString
  | String c rest => String (scrub_char c) (scrub rest)
  end.

(** The columns of each table a filter can name. *)
Definition project_column (field : string) : option (project → string) :=
  if String.eqb field "project_type" then Some project_type
  else if String.eqb field "project_template" then Some project_template
  else None.

Definition task_column (field : string) : option (task → string) :=
  if String.eqb field "project" then Some task_project else None.

Definition timesheet_detail_column (field : string)
  : option (timesheet_detail → string) :=
  if String.eqb field "project" then Some td_project
  else if String.eqb field "task" then Some td_task
  else None.

(** The names of the rows of a table whose column [col] equals [value]. *)
Definition select {R} (col : R → string) (value : string) (t : gmap string R)
  : list string :=
  (map_to_list (filter (λ kv, col kv.2 = value) t)).*1.

Section host.

(** [frappe.get_all] returns the rows in an order the host decides (by
    default the most recently modified first), which may change from one
    call to the next: [row_order history names] is the order in which the
    host returns the rows [names] after the calls [history]. *)
Variable row_order : list call → list string → list string.

(** [frappe.get_all(doctype, filters={field: value})], one per table. *)
Definition get_all_projects (field value : string) : M (list string) :=
  log (GetAll "Project" field value);;
  match project_column field with
  | None => raise (DatabaseError "Project" field)
  | Some col => gets (λ s, row_order (calls s) (select col value (projects s)))
  end.

Definition get_all_tasks (field value : string) : M (list string) :=
  log (GetAll "Task" field value);;
  match task_column field with
  | None => raise (DatabaseError "Task" field)
  | Some col => gets (λ s, row_order (calls s) (select col value (tasks s)))
  end.

Definition get_all_timesheet_details (field value : string) : M (list string) :=
  log (GetAll "Timesheet Detail" field value);;
  match timesheet_detail_column field with
  | None => raise (DatabaseError "Timesheet Detail" field)
  | Some col =>
      gets (λ s, row_order (calls s) (select col value (timesheet_details s)))
  end.

(** [frappe.get_doc(doctype, name)] *)
Definition get_doc_project (name : string) : M project :=
  log (GetDoc "Project" name);;
  found ← gets (λ s, projects s !! name);
  match found with
  | Some doc => ret doc
  | None => raise (DoesNotExistError "Project" name)
  end.

Definition get_doc_task (name : string) : M task :=
  log (GetDoc "Task" name);;
  found ← gets (λ s, tasks s !! name);
  match found with
  | Some doc => ret doc
  | None => raise (DoesNotExistError "Task" name)
  end.

(** [doc.save()] *)
Definition save_project (name : string) (doc : project) : M unit :=
  log (Save "Project" name);;
  modify (λ s, set_projects (<[name := doc]> (projects s)) s).

Definition save_task (name : string) (doc : task) : M unit :=
  log (Save "Task" name);;
  modify (λ s, set_tasks (<[name := doc]> (tasks s)) s).

Definition project_set_billable (billable : Z) (doc : project) : project :=
  {| project_type := project_type doc; project_template := project_template doc;
     project_billable := billable |}.

Definition task_set_billable (billable : Z) (doc : task) : task :=
  {| task_project := task_project doc; task_billable := billable |}.

Definition td_set_billable (billable : Z) (row : timesheet_detail) : timesheet_detail :=
  {| td_project := td_project row; td_task := td_task row; td_billable := billable |}.

(** [frappe.db.set_value("Timesheet Detail", name, "billable", billable)]:
    an UPDATE of the row with that name, if there is one. *)
Definition set_value_timesheet_detail_billable (name : string) (billable : Z) : M unit :=
  log (SetValue "Timesheet Detail" name "billable" billable);;
  modify (λ s, set_timesheet_details
                 (alter (td_set_billable billable) name (timesheet_details s)) s).

(** ** update_linked_tasks (lines 122-130) *)
Definition update_linked_tasks (project : string) (billable : Z) : M (list string) :=
  tasks ← get_all_tasks "project" project;
  for_each tasks (λ task,
    task_doc ← get_doc_task task;
    save_task task (task_set_billable billable task_doc));;
  ret tasks.

(** ** update_linked_projects (lines 110-119) *)
Definition update_linked_projects (ref_field ref_value : string) (billable : Z)
  : M (list string) :=
  projects ← get_all_projects ref_field ref_value;
  for_each projects (λ project,
    project_doc ← get_doc_project project;
    save_project project (project_set_billable billable project_doc);;
    update_linked_tasks project billable;;
    ret tt);;
  ret projects.

(** ** get_project_time_logs (lines 133-134) *)
Definition get_project_time_logs (project : string) : M (list string) :=
  get_all_timesheet_details "project" project.

(** ** update_timesheet_logs (lines 94-107) *)
Definition update_timesheet_logs (ref_dt ref_dn : string) (billable : Z) : M unit :=
  time_logs ← (
    if bool_decide (ref_dt ∈ ["Project"; "Task"]) then
      get_all_timesheet_details (scrub ref_dt) ref_dn
    else if bool_decide (ref_dt ∈ ["Project Type"; "Project Template"]) then
      projects ← update_linked_projects (scrub ref_dt) ref_dn billable;
      time_logs ← map_m get_project_time_logs projects;
      (* flatten the list of time log lists *)
      ret (concat time_logs)
    else ret []);
  for_each time_logs (λ log,
    set_value_timesheet_detail_billable log billable).

End host.

(** ** Specification devices *)

(** The host returns all the rows asked for, each once, in some order. *)
Definition complete (row_order : list call → list string → list string) : Prop :=
  ∀ history names, row_order history names ≡ₚ names.

(** [m] run from [s] returns normally, with a value and a final state
    that satisfy [Q]. *)
Definition runs {A} (m : M A) (s : db) (Q : A → db → Prop) : Prop :=
  ∃ a s', m s = Ok (a, s') ∧ Q a s'.

(** The row named [k] of table [t] has [value] in column [col]. *)
Definition selected {R} (col : R → string) (value : string)
    (t : gmap string R) (k : string) : Prop :=
  ∃ r, t !! k = Some r ∧ col r = value.

(** Apply [f] to the rows of a table that satisfy a test. *)
Definition update_where {R} (test : R → bool) (f : R → R) (t : gmap string R)
  : gmap string R :=
  (λ r, if test r then f r else r) <$> t.

(** Apply [f] to the rows of a table with the given names, in turn. *)
Definition update_names {R} (f : R → R) (names : list string) (t : gmap string R)
  : gmap string R :=
  foldl (λ t k, alter f k t) t names.

Definition same_tables (s s' : db) : Prop :=
  projects s' = projects s ∧ tasks s' = tasks s ∧
  timesheet_details s' = timesheet_details s.

End Billable.

(* ===================================================================== *)
(** * Linked-document traversal                                           *)
(* ===================================================================== *)

Module Linked.

(** A row returned by the host's [get_linked_docs]: the linked document's
    name and docstatus. *)
Record link : Type := Link {
  link_name : string;
  link_docstatus : Z
}.

(** A node descriptor appended to [docs]. *)
Record node : Type := Node {
  doctype : string;
  name : string;
  docstatus : Z;
  link_count : nat
}.

(** The host's link index: for a document (doctype, name), the dict
    [get_linked_docs(doctype, name, get_linked_doctypes(doctype))], as the
    list of its items in iteration order.  A document that is not a key
    of the index has no linked records. *)
Abbreviation graph := (gmap (string * string) (list (string * list link))).

Definition get_linked_docs (g : graph) (doctype name : string)
  : list (string * list link) :=
  default [] (g !! (doctype, name)).

(** Why a run of the traversal stops without returning.  The code itself
    only ever runs out of fuel (it recurses without bound); [Reentered] is
    used by the instrumented traversal [traverse] below. *)
Inductive interrupt : Type :=
| OutOfFuel
| Reentered (doctype name : string).

Inductive outcome (A : Type) : Type :=
| Done (a : A)
| Halt (i : interrupt).
Arguments Done {A} a.
Arguments Halt {A} i.

Definition obind {A B} (o : outcome A) (k : A → outcome B) : outcome B :=
  match o with
  | Done a => k a
  | Halt i => Halt i
  end.

(** ** validate_linked_doc (lines 187-192) *)
Definition validate_linked_doc (docinfo_doctype : string) : bool :=
  bool_decide (docinfo_doctype ∈ ["Project"; "Timesheet"; "Task"]).

(** ** docs.sort(key=lambda doc: doc.get("link_count"))

    Python's [list.sort] is stable; the stable sort of a list is unique,
    and is computed here by insertion. *)
Fixpoint insert_by_link_count (x : node) (l : list node) : list node :=
  match l with
  | [] => [x]
  | y :: rest =>
      if link_count x <=? link_count y then x :: y :: rest
      else y :: insert_by_link_count x rest
  end.

Definition sort_by_link_count (l : list node) : list node :=
  foldr insert_by_link_count [] l.

(** ** get_linked_documents (lines 137-184)

    The state of the loops is the content of the list object [docs] of
    the current call and [link_count].  [rec] stands for the recursive
    call; it returns the final content of the list object the callee
    worked on, and the callee's count.

    [if not docs: docs = []] rebinds the callee's [docs] to a fresh list
    whenever the argument is [None] or empty.  So the callee works on the
    caller's list object only if that list is not empty when passed; if
    it is empty, whatever the callee appends is not seen by the caller. *)
Section body.
Variable rec : string → string → option (list node) → outcome (list node * nat).

(** The body of the inner loop, for one [link] of [link_names]. *)
Definition visit_link (link_doctype : string) (l : link)
    (st : list node * nat) : outcome (list node * nat) :=
  let '(docs, link_count) := st in
  if negb (validate_linked_doc link_doctype) then Done (docs, link_count)
  else
    let link_count := S link_count in
    if bool_decide (link_name l ∈ map name docs) then Done (docs, link_count)
    else
      obind (rec link_doctype (link_name l) (Some docs)) (λ links,
        let docs := match docs with
                    | [] => []             (* the callee took a fresh list *)
                    | _ :: _ => links.1    (* the callee worked on this list *)
                    end in
        Done (docs ++ [Node link_doctype (link_name l) (link_docstatus l) links.2],
              link_count)).

Fixpoint visit_links (link_doctype : string) (link_names : list link)
    (st : list node * nat) : outcome (list node * nat) :=
  match link_names with
  | [] => Done st
  | l :: rest =>
      obind (visit_link link_doctype l st) (visit_links link_doctype rest)
  end.

Fixpoint visit_items (items : list (string * list link))
    (st : list node * nat) : outcome (list node * nat) :=
  match items with
  | [] => Done st
  | (link_doctype, link_names) :: rest =>
      obind (visit_links link_doctype link_names st) (visit_items rest)
  end.

Definition body (g : graph) (doctype name : string) (docs : option (list node))
  : outcome (list node * nat) :=
  let docs := default [] docs in          (* if not docs: docs = [] *)
  let linked_docs := get_linked_docs g doctype name in
  obind (visit_items linked_docs (docs, 0)) (λ st,
    Done (sort_by_link_count st.1, st.2)).
End body.

(** The recursion is not structural and need not end: [fuel] bounds the
    depth of the recursive calls. *)
Fixpoint get_linked_documents (fuel : nat) (g : graph) (doctype name : string)
    (docs : option (list node)) : outcome (list node * nat) :=
  match fuel with
  | 0 => Halt OutOfFuel
  | S fuel => body (get_linked_documents fuel g) g doctype name docs
  end.

(** ** Specification devices *)

(** The number of accepted (allow-listed) direct links in a dict of
    linked records. *)
Definition accepted_links (items : list (string * list link)) : nat :=
  sum_list (map (λ item, if validate_linked_doc item.1 then length item.2 else 0) items).

(** The same run of the code, watched: [stack] holds the documents whose
    call is in progress, and the run is interrupted as soon as a call is
    made on one of them. *)
Fixpoint traverse (fuel : nat) (g : graph) (stack : list (string * string))
    (doctype name : string) (docs : option (list node))
  : outcome (list node * nat) :=
  match fuel with
  | 0 => Halt OutOfFuel
  | S fuel =>
      if bool_decide ((doctype, name) ∈ stack) then Halt (Reentered doctype name)
      else body (traverse fuel g ((doctype, name) :: stack)) g doctype name docs
  end.

(** An allow-listed link from document [x] to document [y]. *)
Definition edge (g : graph) (x y : string * string) : Prop :=
  ∃ link_names l,
    (y.1, link_names) ∈ get_linked_docs g x.1 x.2 ∧
    validate_linked_doc y.1 = true ∧
    l ∈ link_names ∧ link_name l = y.2.

Definition acyclic (g : graph) : Prop := ∀ x, ¬ tc (edge g) x x.

(** The documents of the index: its keys and the targets of its links. *)
Definition targets (items : list (string * list link)) : list (string * string) :=
  items ≫= (λ item, map (λ l, (item.1, link_name l)) item.2).

Definition documents (g : graph) : list (string * string) :=
  (map_to_list g) ≫= (λ kv, kv.1 :: targets kv.2).

(** [docs] is in ascending order of [link_count]. *)
Definition ascending (docs : list node) : Prop :=
  StronglySorted (λ x y, link_count x ≤ link_count y) docs.

(** One run gives at least what the other gives: if the first returns,
    the second returns the same. *)
Definition returns_as {A} (o1 o2 : outcome A) : Prop :=
  ∀ a, o1 = Done a → o2 = Done a.

(** The first run is the second cut short by lack of fuel, or the same. *)
Definition fuel_prefix {A} (o1 o2 : outcome A) : Prop :=
  o1 = Halt OutOfFuel ∨ o1 = o2.

(** No call of the watched run is made on a document in progress. *)
Definition reentry_free (g : graph) (doctype name : string)
    (docs : option (list node)) : Prop :=
  ∀ fuel d n, traverse fuel g [] doctype name docs ≠ Halt (Reentered d n).

(** The index with the two-document cycle A -> B -> A. *)
Definition two_cycle (dt_a a dt_b b : string) : graph :=
  {[ (dt_a, a) := [(dt_b, [Link b 0])];
     (dt_b, b) := [(dt_a, [Link a 0])] ]}.

End Linked.

(* ===================================================================== *)
(** * License check of transactional documents                            *)
(* ===================================================================== *)

Module Transaction.
Import Host License.

(** The fields of a transactional document read by the hook; an unset
    field is [""]. *)
Record document : Type := Document {
  doctype : string;
  customer : string;
  supplier : string;
  quotation_to : string;
  party_name : string
}.

(** The hook drops the value returned by [validate_entity_license]; what
    is left of the call is the messages it printed, or its exception. *)
Definition printed (r : result (pyval * list message)) : result (list message) :=
  match r with
  | Ok (_, msgs) => Ok msgs
  | Raise e => Raise e
  end.

(** ** validate_license_expiry (lines 8-14) *)
Definition validate_license_expiry (today : date) (st : store) (doc : document)
  : result (list message) :=
  if bool_decide (doctype doc ∈ ["Sales Order"; "Sales Invoice"; "Delivery Note"]) then
    printed (validate_entity_license today st "Customer" (customer doc))
  else if bool_decide (doctype doc ∈ ["Supplier Quotation"; "Purchase Order";
                                       "Purchase Invoice"; "Purchase Receipt"]) then
    printed (validate_entity_license today st "Supplier" (supplier doc))
  else if bool_decide (doctype doc = "Quotation")
          && bool_decide (quotation_to doc = "Customer") then
    printed (validate_entity_license today st "Customer" (party_name doc))
  else Ok [].

End Transaction.

(* ===================================================================== *)
(** * Scope of a billable update                                          *)
(* ===================================================================== *)

Module BillableScope.
Import Billable.

(** The Projects a Project Type or Project Template reference selects. *)
Definition project_in_scope (ref_dt ref_dn : string) (row : project) : Prop :=
  (ref_dt = "Project Type" ∧ project_type row = ref_dn) ∨
  (ref_dt = "Project Template" ∧ project_template row = ref_dn).

(** The Tasks of those Projects. *)
Definition task_in_scope (ref_dt ref_dn : string) (projects : gmap string project)
    (row : task) : Prop :=
  ∃ p, projects !! task_project row = Some p ∧ project_in_scope ref_dt ref_dn p.

(** The Timesheet Detail rows a reference selects: by their task or
    project field for a Task or Project reference, by the Project they
    name for a Project Type or Project Template reference. *)
Definition td_in_scope (ref_dt ref_dn : string) (projects : gmap string project)
    (row : timesheet_detail) : Prop :=
  (ref_dt = "Task" ∧ td_task row = ref_dn) ∨
  (ref_dt = "Project" ∧ td_project row = ref_dn) ∨
  ∃ p, projects !! td_project row = Some p ∧ project_in_scope ref_dt ref_dn p.

(** Table [t'] is table [t] with [f] applied to exactly the rows in
    [scope]: the other rows are as they were, and no row is added or
    removed. *)
Definition updated {R} (scope : R → Prop) (f : R → R) (t t' : gmap string R) : Prop :=
  ∀ k, match t !! k with
       | Some r =>
           ∃ r', t' !! k = Some r' ∧ ((scope r ∧ r' = f r) ∨ (¬ scope r ∧ r' = r))
       | None => t' !! k = None
       end.

End BillableScope.

(* ===================================================================== *)
(** * Nodes found by the traversal                                        *)
(* ===================================================================== *)

Module LinkedScope.
Import Linked.

(** The document a node describes. *)
Definition described (nd : node) : string * string := (doctype nd, name nd).

(** Node [nd] describes a document reached from [x] through one or more
    allow-listed links. *)
Definition reached (g : graph) (x : string * string) (nd : node) : Prop :=
  tc (edge g) x (described nd).

(** The [link_count] of [nd] is the number of allow-listed direct links
    of the document it describes. *)
Definition counted (g : graph) (nd : node) : Prop :=
  link_count nd = accepted_links (get_linked_docs g (doctype nd) (name nd)).





End LinkedScope.

(* ===================================================================== *)
(** * Concrete stores used to exercise the theorems                       *)
(* ===================================================================== *)

Module Fixtures.
Import Host.

(** A customer with three licenses, two of them flagged default. *)
Definition customer_c1 : License.party :=
  License.Party "C1"
    [License.LicenseRow 1 "L1" 0 None;
     License.LicenseRow 2 "L2" 1 (Some 100%Z);
     License.LicenseRow 3 "L3" 1 (Some 300%Z)].

(** A supplier with two licenses, one flagged default. *)
Definition supplier_s1 : License.party :=
  License.Party "S1"
    [License.LicenseRow 1 "L4" 0 (Some 150%Z);
     License.LicenseRow 2 "L5" 1 None].

Definition license_store : License.store :=
  License.Store
    {[ ("Customer", "C1") := customer_c1; ("Supplier", "S1") := supplier_s1 ]}
    {[ "L2" := License.ComplianceInfo (Some 100%Z) "LIC-0002";
       "L5" := License.ComplianceInfo None "LIC-0005" ]}.

(** Two Internal projects with two tasks each, and a project of another
    type; one time log per project. *)
Definition billable_db : Billable.db :=
  Billable.Db
    (list_to_map [("P1", Billable.Project "Internal" "" 0);
                  ("P2", Billable.Project "Internal" "" 0);
                  ("P3", Billable.Project "External" "" 0)])
    (list_to_map [("T1", Billable.Task "P1" 0); ("T2", Billable.Task "P1" 0);
                  ("T3", Billable.Task "P2" 0); ("T4", Billable.Task "P2" 0);
                  ("T5", Billable.Task "P3" 0)])
    (list_to_map [("D1", Billable.TimesheetDetail "P1" "T1" 0);
                  ("D2", Billable.TimesheetDetail "P2" "T3" 0);
                  ("D3", Billable.TimesheetDetail "P3" "T5" 0)])
    [].

(** Project P1 is linked to Task T1 and to a Sales Invoice; T1 has no
    links.  Project P2 is linked to a Sales Invoice only. *)
Definition index_p1 : Linked.graph :=
  {[ ("Project", "P1") :=
       [("Task", [Linked.Link "T1" 0]); ("Sales Invoice", [Linked.Link "SI1" 1])];
     ("Project", "P2") := [("Sales Invoice", [Linked.Link "SI2" 1])] ]}.

(** The links S -> Q -> P -> S form a cycle; from R, a Task named "P" is
    appended before the cycle is reached. *)
Definition index_cut_cycle : Linked.graph :=
  {[ ("Project", "R") :=
       [("Task", [Linked.Link "P" 0]); ("Project", [Linked.Link "S" 0])];
     ("Project", "S") := [("Task", [Linked.Link "Q" 0])];
     ("Task", "Q") := [("Project", [Linked.Link "P" 0])];
     ("Project", "P") := [("Project", [Linked.Link "S" 0])] ]}.

(** Project P1 is linked to Task T1, which is linked to Timesheet TS1. *)
Definition index_nested : Linked.graph :=
  {[ ("Project", "P1") := [("Task", [Linked.Link "T1" 0])];
     ("Task", "T1") := [("Timesheet", [Linked.Link "TS1" 1])] ]}.

(** The same, with a Task T0 without links listed before T1. *)
Definition index_nested_second : Linked.graph :=
  {[ ("Project", "P1") := [("Task", [Linked.Link "T0" 0; Linked.Link "T1" 0])];
     ("Task", "T1") := [("Timesheet", [Linked.Link "TS1" 1])] ]}.


(** A customer with a single license, not flagged default. *)
Definition customer_c2 : License.party :=
  License.Party "C2" [License.LicenseRow 1 "L9" 0 (Some 500%Z)].

(** A customer whose default license names no Compliance Info record. *)
Definition customer_c3 : License.party :=
  License.Party "C3" [License.LicenseRow 1 "L7" 1 None].

Definition dangling_store : License.store :=
  License.Store {[ ("Customer", "C3") := customer_c3 ]} ∅.

End Fixtures.

(* ===================================================================== *)
(** * Facts about the license hooks                                       *)
(* ===================================================================== *)

Module LicenseFacts.
Import Host License.

(** [len(list(set(l))) = len(l)] exactly when [l] has no repetition. *)
Lemma length_unique_iff (l : list string) :
  length (elements (list_to_set (C := gset string) l)) = length l ↔ NoDup l.
Proof.
  split.
  - intros Hlen.
    assert (Hsub : elements (list_to_set (C := gset string) l) ⊆+ l).
    { apply NoDup_submseteq; [apply NoDup_elements|].
      intros x Hx. by apply elem_of_elements, elem_of_list_to_set in Hx. }
    assert (Hperm : elements (list_to_set (C := gset string) l) ≡ₚ l)
      by (apply submseteq_length_Permutation; [done|lia]).
    rewrite <- Hperm. apply NoDup_elements.
  - intros Hnd. by rewrite (elements_list_to_set l Hnd).
Qed.

Lemma unique_check (doc : party) :
  negb (length (licenses doc) =?
        length (elements (list_to_set (C := gset string) (map license (licenses doc)))))
  = bool_decide (¬ NoDup (map license (licenses doc))).
Proof.
  pose proof (length_unique_iff (map license (licenses doc))) as Hiff.
  rewrite length_map in Hiff.
  destruct (Nat.eqb_spec (length (licenses doc))
    (length (elements (list_to_set (C := gset string) (map license (licenses doc))))))
    as [Heq|Hne]; simpl; symmetry.
  - apply bool_decide_eq_false. intros Hnd. apply Hnd, Hiff. by symmetry.
  - apply bool_decide_eq_true. intros Hnd. apply Hne. symmetry. by apply Hiff.
Qed.

(** [find] returns the first row that satisfies the test. *)
Lemma find_first {A} (f : A → bool) (l : list A) (i : nat) (x : A) :
  l !! i = Some x → f x = true →
  (∀ j y, j < i → l !! j = Some y → f y = false) →
  List.find f l = Some x.
Proof.
  revert i. induction l as [|a l IH]; intros i Hi Hx Hbefore; [done|].
  destruct i as [|i]; simpl in *.
  - injection Hi as ->. by rewrite Hx.
  - rewrite (Hbefore 0 a); [|lia|done].
    apply (IH i); [done..|].
    intros j y Hj Hy. apply (Hbefore (S j) y); [lia|done].
Qed.

Lemma find_nowhere {A} (f : A → bool) (l : list A) :
  (∀ x, x ∈ l → f x = false) → List.find f l = None.
Proof.
  induction l as [|a l IH]; intros Hall; [done|]. simpl.
  rewrite (Hall a); [|by left]. apply IH. intros x Hx. apply Hall. by right.
Qed.

(** C9 -- [get_default_license] on an existing party: no licenses gives
    [None]; otherwise the license id of the first row flagged default, or
    [''] when no row is flagged. *)
Theorem get_default_license_spec (st : store) (party_type party_name : string)
    (doc : party) :
  parties st !! (party_type, party_name) = Some doc →
  (licenses doc = [] →
     get_default_license st party_type party_name = Ok PNone) ∧
  (licenses doc ≠ [] →
     (∀ i row,
        licenses doc !! i = Some row →
        truthy_int (is_default row) = true →
        (∀ j earlier, j < i → licenses doc !! j = Some earlier →
                      truthy_int (is_default earlier) = false) →
        get_default_license st party_type party_name = Ok (PStr (license row))) ∧
     ((∀ row, row ∈ licenses doc → truthy_int (is_default row) = false) →
        get_default_license st party_type party_name = Ok (PStr ""))).
Proof.
  intros Hdoc. unfold get_default_license. rewrite Hdoc. split.
  - by intros ->.
  - intros Hne. destruct (licenses doc) as [|r rs] eqn:Hls; [done|]. split.
    + intros i row Hi Hrow Hbefore.
      by rewrite (find_first _ _ i row Hi Hrow Hbefore).
    + intros Hnone. by rewrite find_nowhere.
Qed.

Lemma get_default_license_witness :
  get_default_license Fixtures.license_store "Customer" "C1" = Ok (PStr "L2").
Proof.
  destruct (get_default_license_spec Fixtures.license_store "Customer" "C1"
              Fixtures.customer_c1 eq_refl) as [_ Hrows].
  destruct (Hrows ltac:(done)) as [Hfirst _].
  apply (Hfirst 1 (LicenseRow 2 "L2" 1 (Some 100%Z))); [done..|].
  intros [|j] earlier Hj Hlook; [|lia]. by injection Hlook as <-.
Defined.

(** ** validate_default_license *)

Lemma validate_default_license_duplicates (doc : party) :
  ¬ NoDup (map license (licenses doc)) →
  validate_default_license doc = Raise (ValidationError msg_duplicates).
Proof.
  intros Hdup. unfold validate_default_license.
  by rewrite unique_check, bool_decide_eq_true_2.
Qed.

Lemma validate_default_license_distinct (doc : party) :
  NoDup (map license (licenses doc)) →
  validate_default_license doc =
    if length (licenses doc) =? 1 then
      Ok (set_licenses doc (alter set_default 0 (licenses doc)))
    else if 1 <? length (licenses doc) then
      match defaults doc with
      | [] => Raise (ValidationError msg_no_default)
      | _ => if 1 <? length (defaults doc)
             then Raise (ValidationError
                           (msg_many_defaults (name doc) (length (defaults doc))))
             else Ok doc
      end
    else Ok doc.
Proof.
  intros Hnd. unfold validate_default_license.
  rewrite unique_check, bool_decide_eq_false_2; [done|]. by intros Hn.
Qed.

Lemma defaults_flagged (doc : party) :
  defaults doc = filter (λ r, is_default r ≠ 0%Z) (licenses doc).
Proof.
  unfold defaults. induction (licenses doc) as [|r rs IH]; [done|].
  simpl. rewrite filter_cons, IH. unfold truthy_int.
  destruct (Z.eqb_spec (is_default r) 0) as [Heq|Hne]; simpl.
  - by rewrite decide_False by (by intros ?).
  - by rewrite decide_True.
Qed.

(** C4 -- [validate_default_license]: a repeated license id is rejected
    whatever the default flags; the row of a one-row table has its
    default flag set to 1, nothing else changing; with two or more rows
    of distinct ids, no default row and more than one default row are
    rejected (the latter naming the document and the count), and exactly
    one default row leaves the document as it is. *)
Theorem validate_default_license_spec (doc : party) :
  (¬ NoDup (map license (licenses doc)) →
     validate_default_license doc =
       Raise (ValidationError
                (Message "Please remove duplicate licenses before proceeding" []))) ∧
  (∀ row, licenses doc = [row] →
     validate_default_license doc =
       Ok {| name := name doc;
             licenses := [ {| idx := idx row; license := license row;
                              is_default := 1;
                              license_expiry_date := license_expiry_date row |} ] |}) ∧
  (∀ n, n = length (filter (λ r, is_default r ≠ 0%Z) (licenses doc)) →
     2 ≤ length (licenses doc) → NoDup (map license (licenses doc)) →
     (n = 0 →
        validate_default_license doc =
          Raise (ValidationError
                   (Message "There must be atleast one default license, found none"
                            []))) ∧
     (1 < n →
        validate_default_license doc =
          Raise (ValidationError
                   (Message "There can be only one default license for {0}, found {1}"
                            [AStr (name doc); AInt (Z.of_nat n)]))) ∧
     (n = 1 →
        validate_default_license doc = Ok doc)).
Proof.
  split; [apply validate_default_license_duplicates|]. split.
  - intros row Hrow.
    rewrite validate_default_license_distinct.
    + by rewrite Hrow.
    + rewrite Hrow. apply NoDup_singleton.
  - intros n -> Hlen Hnd. rewrite (validate_default_license_distinct doc Hnd).
    rewrite <- defaults_flagged.
    destruct (Nat.eqb_spec (length (licenses doc)) 1) as [?|_]; [lia|].
    destruct (Nat.ltb_spec 1 (length (licenses doc))) as [_|?]; [|lia].
    repeat split; intros Hn.
    + by destruct (defaults doc).
    + destruct (defaults doc) as [|d ds] eqn:Hd; [simpl in Hn; lia|].
      destruct (Nat.ltb_spec 1 (length (d :: ds))); [done|lia].
    + destruct (defaults doc) as [|d [|d' ds]] eqn:Hd; done.
Qed.

Lemma validate_default_license_witness :
  validate_default_license Fixtures.customer_c1 =
    Raise (ValidationError
             (Message "There can be only one default license for {0}, found {1}"
                      [AStr "C1"; AInt 2])) ∧
  validate_default_license Fixtures.supplier_s1 = Ok Fixtures.supplier_s1 ∧
  validate_default_license Fixtures.customer_c2 =
    Ok (Party "C2" [LicenseRow 1 "L9" 1 (Some 500%Z)]) ∧
  validate_default_license
    (Party "C4" [LicenseRow 1 "L1" 1 None; LicenseRow 2 "L1" 0 None]) =
    Raise (ValidationError
             (Message "Please remove duplicate licenses before proceeding" [])).
Proof.
  split; [|split; [|split]].
  - destruct (validate_default_license_spec Fixtures.customer_c1) as (_ & _ & Hmany).
    apply (Hmany 2);
      [reflexivity|simpl; lia|by apply (bool_decide_unpack _)|lia].
  - destruct (validate_default_license_spec Fixtures.supplier_s1) as (_ & _ & Hone).
    apply (Hone 1);
      [reflexivity|simpl; lia|by apply (bool_decide_unpack _)|reflexivity].
  - destruct (validate_default_license_spec Fixtures.customer_c2) as (_ & Hsingle & _).
    apply (Hsingle (LicenseRow 1 "L9" 0 (Some 500%Z))). reflexivity.
  - destruct (validate_default_license_spec
                (Party "C4" [LicenseRow 1 "L1" 1 None; LicenseRow 2 "L1" 0 None]))
      as (Hdup & _).
    apply Hdup. apply (bool_decide_unpack _). reflexivity.
Defined.

(** ** validate_entity_license *)

(** C7 -- [validate_entity_license] on a party that does
    not exist is rejected with the host's [DoesNotExistError].  On an
    existing party: without a default license it returns nothing and
    prints nothing; with one that names no Compliance Info record it ends
    in [TypeError]; with one whose Compliance Info record is found, it
    warns when the expiry date is missing, warns (naming the party, the
    license number and the date) when the date is strictly before today,
    prints nothing otherwise, and returns the license id.  When the party
    exists and its default license, if any, has its record, the call does
    not end in a rejection. *)
Theorem validate_entity_license_spec (today : date) (st : store)
    (party_type party_name : string) :
  (parties st !! (party_type, party_name) = None →
     validate_entity_license today st party_type party_name
       = Raise (DoesNotExistError party_type party_name)) ∧
  (is_Some (parties st !! (party_type, party_name)) →
     (∀ v, get_default_license st party_type party_name = Ok v →
           truthy v = false →
           validate_entity_license today st party_type party_name
             = Ok (PNone, [])) ∧
     (∀ license_record,
        get_default_license st party_type party_name = Ok (PStr license_record) →
        license_record ≠ "" →
        compliance st !! license_record = None →
        validate_entity_license today st party_type party_name = Raise TypeError) ∧
     (∀ license_record ci,
        get_default_license st party_type party_name = Ok (PStr license_record) →
        license_record ≠ "" →
        compliance st !! license_record = Some ci →
        (ci_license_expiry_date ci = None →
           validate_entity_license today st party_type party_name =
             Ok (PStr license_record,
                 [Message "We could not verify the status of license number {0}, Proceed with Caution."
                          [ABold (AStr (ci_license_number ci))]])) ∧
        (∀ d, ci_license_expiry_date ci = Some d → (d < today)%Z →
           validate_entity_license today st party_type party_name =
             Ok (PStr license_record,
                 [Message "Our records indicate {0}'s license number {1} has expired on {2}, Proceed with Caution."
                          [ABold (AStr party_name);
                           ABold (AStr (ci_license_number ci));
                           ABold (ADate d)]])) ∧
        (∀ d, ci_license_expiry_date ci = Some d → (today ≤ d)%Z →
           validate_entity_license today st party_type party_name =
             Ok (PStr license_record, []))) ∧
     ((∀ license_record,
         get_default_license st party_type party_name = Ok (PStr license_record) →
         license_record ≠ "" → is_Some (compliance st !! license_record)) →
      ¬ is_hard_rejection
          (validate_entity_license today st party_type party_name))).
Proof.
  split.
  - intros Hmissing. unfold validate_entity_license, get_default_license.
    by rewrite Hmissing.
  - intros [doc Hdoc]. split; [|split; [|split]].
    + intros v Hget Hv. unfold validate_entity_license. by rewrite Hget, Hv.
    + intros license_record Hget Hne Hci. unfold validate_entity_license.
      rewrite Hget.
      assert (truthy (PStr license_record) = true) as ->.
      { simpl. by destruct (String.eqb_spec license_record ""). }
      simpl. by rewrite Hci.
    + intros license_record ci Hget Hne Hci. unfold validate_entity_license.
      rewrite Hget.
      assert (truthy (PStr license_record) = true) as ->.
      { simpl. by destruct (String.eqb_spec license_record ""). }
      simpl. rewrite Hci. repeat split.
      * by intros ->.
      * intros d -> Hd. by rewrite (proj2 (Z.ltb_lt d today) Hd).
      * intros d -> Hd. by rewrite (proj2 (Z.ltb_ge d today) Hd).
    + intros Hlinked [e He]. unfold validate_entity_license in He.
      destruct (get_default_license st party_type party_name) as [v|e'] eqn:Hget.
      * destruct (truthy v) eqn:Hv; simpl in He; [|done].
        destruct v as [|record_name]; [done|].
        destruct (Hlinked record_name eq_refl) as [ci Hci].
        { intros ->. by simpl in Hv. }
        rewrite Hci in He.
        destruct (ci_license_expiry_date ci) as [d|]; [|done].
        by destruct (d <? today)%Z.
      * unfold get_default_license in Hget. rewrite Hdoc in Hget.
        destruct (licenses doc); [done|]. by destruct (List.find _ _).
Qed.

Lemma validate_entity_license_witness :
  validate_entity_license 200%Z Fixtures.license_store "Customer" "C1" =
    Ok (PStr "L2",
        [Message "Our records indicate {0}'s license number {1} has expired on {2}, Proceed with Caution."
                 [ABold (AStr "C1"); ABold (AStr "LIC-0002"); ABold (ADate 100%Z)]]) ∧
  validate_entity_license 200%Z Fixtures.license_store "Supplier" "S1" =
    Ok (PStr "L5",
        [Message "We could not verify the status of license number {0}, Proceed with Caution."
                 [ABold (AStr "LIC-0005")]]) ∧
  validate_entity_license 50%Z Fixtures.license_store "Customer" "C1" =
    Ok (PStr "L2", []) ∧
  validate_entity_license 200%Z Fixtures.license_store "Customer" "C9" =
    Raise (DoesNotExistError "Customer" "C9") ∧
  ¬ is_hard_rejection
      (validate_entity_license 200%Z Fixtures.license_store "Customer" "C1").
Proof.
  destruct (validate_entity_license_spec 200%Z Fixtures.license_store "Customer" "C1")
    as (_ & Hc1).
  destruct (Hc1 ltac:(by eexists)) as (_ & _ & Hfound & Hfree).
  split; [|split; [|split; [|split]]].
  - destruct (Hfound "L2" (ComplianceInfo (Some 100%Z) "LIC-0002")
                eq_refl ltac:(done) eq_refl) as (_ & Hexpired & _).
    apply (Hexpired 100%Z); [done|lia].
  - destruct (validate_entity_license_spec 200%Z Fixtures.license_store "Supplier" "S1")
      as (_ & Hs1).
    destruct (Hs1 ltac:(by eexists)) as (_ & _ & Hfound' & _).
    destruct (Hfound' "L5" (ComplianceInfo None "LIC-0005")
                eq_refl ltac:(done) eq_refl) as (Hmissing & _).
    by apply Hmissing.
  - destruct (validate_entity_license_spec 50%Z Fixtures.license_store "Customer" "C1")
      as (_ & Hearly).
    destruct (Hearly ltac:(by eexists)) as (_ & _ & Hfound' & _).
    destruct (Hfound' "L2" (ComplianceInfo (Some 100%Z) "LIC-0002")
                eq_refl ltac:(done) eq_refl) as (_ & _ & Hvalid).
    apply (Hvalid 100%Z); [done|lia].
  - destruct (validate_entity_license_spec 200%Z Fixtures.license_store "Customer" "C9")
      as (Hmissing & _).
    by apply Hmissing.
  - apply Hfree. intros license_record [= <-] _. by eexists.
Defined.

(** C7, counterexample -- the check is not purely advisory: on
    a party that does not exist it ends in [DoesNotExistError], and on a
    party whose default license names no Compliance Info record a default
    license is found, yet the call ends in [TypeError] and returns no
    license id.  Either way the save is blocked. *)
Lemma validate_entity_license_rejects :
  (validate_entity_license 200%Z Fixtures.license_store "Customer" "C9"
     = Raise (DoesNotExistError "Customer" "C9") ∧
   is_hard_rejection
     (validate_entity_license 200%Z Fixtures.license_store "Customer" "C9")) ∧
  (get_default_license Fixtures.dangling_store "Customer" "C3" = Ok (PStr "L7") ∧
   validate_entity_license 200%Z Fixtures.dangling_store "Customer" "C3"
     = Raise TypeError ∧
   is_hard_rejection
     (validate_entity_license 200%Z Fixtures.dangling_store "Customer" "C3")).
Proof.
  split; [split; [reflexivity|by eexists]|].
  split; [reflexivity|]. split; [reflexivity|by eexists].
Qed.

(** ** validate_expired_licenses *)

(** C8 -- [validate_expired_licenses] prints, in row order, one warning
    for each row whose expiry date is set and strictly before today,
    naming the row index, the license id and the day count today minus
    expiry, which is positive; other rows print nothing; the hook never
    raises and returns the document as it was. *)
Theorem validate_expired_licenses_spec (today : date) (doc : party) :
  ∃ msgs,
    validate_expired_licenses today doc = Ok (doc, msgs) ∧
    msgs = expiry_warning today <$> filter (expired today) (licenses doc) ∧
    (∀ row, row ∈ licenses doc → expired today row →
       ∃ d, license_expiry_date row = Some d ∧ (0 < today - d)%Z ∧
            expiry_warning today row =
              Message "Row #{0}: License {1} has expired {2} days ago"
                      [AInt (idx row); ABold (AStr (license row));
                       ABold (AInt (today - d))]) ∧
    (Forall (λ r, ¬ expired today r) (licenses doc) → msgs = []).
Proof.
  eexists. split; [done|]. split; [|split].
  - unfold validate_expired_licenses.
    induction (licenses doc) as [|row rows IH]; [done|].
    simpl. rewrite IH, filter_cons. unfold expired_row_messages.
    destruct (license_expiry_date row) as [d|] eqn:Hd.
    + destruct (Z.ltb_spec d today) as [Hlt|Hge].
      * rewrite decide_True by (exists d; done). simpl.
        unfold expiry_warning. by rewrite Hd.
      * rewrite decide_False; [done|].
        intros (d' & Hd' & ?). rewrite Hd in Hd'. injection Hd' as <-. lia.
    + rewrite decide_False; [done|].
      intros (d' & Hd' & ?). by rewrite Hd in Hd'.
  - intros row _ (d & Hd & Hlt). exists d. split; [done|]. split; [lia|].
    unfold expiry_warning. by rewrite Hd.
  - intros Hnone. induction Hnone as [|row rows Hrow _ IH]; [done|].
    simpl. rewrite <- IH. unfold expired_row_messages.
    destruct (license_expiry_date row) as [d|] eqn:Hd; [|done].
    destruct (Z.ltb_spec d today); [|done]. destruct Hrow. by exists d.
Qed.

Lemma validate_expired_licenses_witness :
  validate_expired_licenses 200%Z Fixtures.customer_c1 =
    Ok (Fixtures.customer_c1,
        [Message "Row #{0}: License {1} has expired {2} days ago"
                 [AInt 2; ABold (AStr "L2"); ABold (AInt 100)]]).
Proof.
  destruct (validate_expired_licenses_spec 200%Z Fixtures.customer_c1)
    as (msgs & Hrun & Hmsgs & Hrow & _).
  rewrite Hrun, Hmsgs.
  destruct (Hrow (LicenseRow 2 "L2" 1 (Some 100%Z)))
    as (d & Hd & Hpos & Hwarning).
  - right; left.
  - exists 100%Z. split; [reflexivity|lia].
  - reflexivity.
Defined.

End LicenseFacts.

(* ===================================================================== *)
(** * Facts about the billable cascade                                    *)
(* ===================================================================== *)

Module BillableFacts.
Import Host Billable.

(** ** Rules for running host calls *)

Lemma runs_ret {A} (a : A) (s : db) (Q : A → db → Prop) :
  Q a s → runs (ret a) s Q.
Proof. intros HQ. by exists a, s. Qed.

Lemma runs_bind {A B} (m : M A) (k : A → M B) (s : db) (Q : B → db → Prop) :
  runs m s (λ a s', runs (k a) s' Q) → runs (m ≫= k) s Q.
Proof.
  intros (a & s' & Hm & b & s'' & Hk & HQ). exists b, s''.
  unfold mbind, M_bind, bind. by rewrite Hm.
Qed.

Lemma runs_mono {A} (m : M A) (s : db) (Q Q' : A → db → Prop) :
  runs m s Q → (∀ a s', Q a s' → Q' a s') → runs m s Q'.
Proof. intros (a & s' & Hm & HQ) Himp. exists a, s'. auto. Qed.

Lemma runs_gets {A} (f : db → A) (s : db) (Q : A → db → Prop) :
  Q (f s) s → runs (gets f) s Q.
Proof. intros HQ. by exists (f s), s. Qed.

Lemma runs_modify (f : db → db) (s : db) (Q : unit → db → Prop) :
  Q tt (f s) → runs (modify f) s Q.
Proof. intros HQ. by exists tt, (f s). Qed.

Lemma runs_log (c : call) (s : db) (Q : unit → db → Prop) :
  Q tt (set_calls (calls s ++ [c]) s) → runs (log c) s Q.
Proof. apply runs_modify. Qed.

(** The loop rule: [I done s] holds of the state once the elements
    [done] have been processed. *)
Lemma runs_for_each_from {A} (I : list A → db → Prop) (body : A → M unit)
    (l done : list A) (s : db) :
  I done s →
  (∀ pre x s', x ∈ l → I pre s' → runs (body x) s' (λ _ s'', I (pre ++ [x]) s'')) →
  runs (for_each l body) s (λ _ s', I (done ++ l) s').
Proof.
  revert done s. induction l as [|x l IH]; intros done s HI Hbody; simpl.
  - apply runs_ret. by rewrite app_nil_r.
  - apply runs_bind. eapply runs_mono; [apply (Hbody done x s); [by left|done]|].
    intros [] s' HI'. simpl.
    replace (done ++ x :: l) with ((done ++ [x]) ++ l) by by rewrite <- app_assoc.
    apply IH; [done|]. intros pre y s'' Hy. apply Hbody. by right.
Qed.

Lemma runs_for_each {A} (I : list A → db → Prop) (body : A → M unit)
    (l : list A) (s : db) :
  I [] s →
  (∀ pre x s', x ∈ l → I pre s' → runs (body x) s' (λ _ s'', I (pre ++ [x]) s'')) →
  runs (for_each l body) s (λ _ s', I l s').
Proof. intros HI Hbody. by apply (runs_for_each_from I body l [] s). Qed.

(** ** Tables *)

Lemma elem_of_select {R} (col : R → string) (value : string)
    (t : gmap string R) (k : string) :
  k ∈ select col value t ↔ selected col value t k.
Proof.
  unfold select, selected. rewrite list_elem_of_fmap. split.
  - intros ([k' r] & -> & Hin). exists r.
    apply elem_of_map_to_list in Hin.
    by apply map_lookup_filter_Some in Hin.
  - intros (r & Hk & Hcol). exists (k, r). split; [done|].
    apply elem_of_map_to_list. by apply map_lookup_filter_Some.
Qed.

Lemma lookup_update_names {R} (f : R → R) (names : list string)
    (t : gmap string R) (k : string) :
  (∀ r, f (f r) = f r) →
  update_names f names t !! k =
    if decide (k ∈ names) then f <$> t !! k else t !! k.
Proof.
  intros Hidem. unfold update_names.
  induction names as [|n names IH] using rev_ind; [done|].
  rewrite foldl_app. simpl. rewrite lookup_alter.
  destruct (decide (n = k)) as [->|Hne].
  - rewrite (decide_True (P := k ∈ names ++ [k]))
      by (apply elem_of_app; right; by left).
    rewrite IH. destruct (decide (k ∈ names)); [|done].
    destruct (t !! k); simpl; [|done]. by rewrite Hidem.
  - rewrite IH. destruct (decide (k ∈ names)) as [Hin|Hnin].
    + rewrite (decide_True (P := k ∈ names ++ [n])); [done|].
      apply elem_of_app. by left.
    + rewrite (decide_False (P := k ∈ names ++ [n])); [done|].
      intros [?|Hk]%elem_of_app; [done|]. by apply list_elem_of_singleton in Hk.
Qed.

Lemma lookup_update_names_is_Some {R} (f : R → R) (names : list string)
    (t : gmap string R) (k : string) :
  is_Some (update_names f names t !! k) ↔ is_Some (t !! k).
Proof.
  unfold update_names. revert t.
  induction names as [|n names IH]; intros t; simpl; [tauto|].
  rewrite IH, lookup_alter. destruct (decide (n = k)) as [->|]; [|tauto].
  apply fmap_is_Some.
Qed.

(** Updating the selected rows one by one, by name, in any order, is
    updating the rows that pass the test. *)
Lemma update_names_selected {R} (col : R → string) (value : string) (f : R → R)
    (names : list string) (t : gmap string R) :
  (∀ r, f (f r) = f r) →
  (∀ k, k ∈ names ↔ selected col value t k) →
  update_names f names t =
    update_where (λ r, bool_decide (col r = value)) f t.
Proof.
  intros Hidem Hnames. apply map_eq. intros k.
  rewrite lookup_update_names by done. unfold update_where. rewrite lookup_fmap.
  destruct (decide (k ∈ names)) as [Hin|Hnin].
  - apply Hnames in Hin as (r & Hk & Hcol). rewrite Hk. simpl.
    by rewrite bool_decide_eq_true_2.
  - destruct (t !! k) as [r|] eqn:Hk; [|done]. simpl.
    rewrite bool_decide_eq_false_2; [done|].
    intros Hcol. apply Hnin, Hnames. by exists r.
Qed.

Lemma alter_as_insert {R} (f : R → R) (t : gmap string R) (k : string) (r : R) :
  t !! k = Some r → <[k := f r]> t = alter f k t.
Proof.
  intros Hk. apply map_eq. intros j. rewrite lookup_insert, lookup_alter.
  destruct (decide (k = j)) as [<-|]; [|done]. by rewrite Hk.
Qed.

Lemma update_where_twice {R} (test1 test2 : R → bool) (f : R → R)
    (t : gmap string R) :
  (∀ r, f (f r) = f r) →
  (∀ r, test2 (f r) = test2 r) →
  update_where test2 f (update_where test1 f t) =
    update_where (λ r, test1 r || test2 r) f t.
Proof.
  intros Hidem Htest. unfold update_where.
  rewrite <- map_fmap_compose. apply map_fmap_ext. intros k r _. simpl.
  destruct (test1 r) eqn:H1; simpl.
  - rewrite Htest. destruct (test2 r); by rewrite ?Hidem.
  - done.
Qed.

Lemma update_where_ext {R} (test1 test2 : R → bool) (f : R → R)
    (t : gmap string R) :
  (∀ r, test1 r = test2 r) → update_where test1 f t = update_where test2 f t.
Proof.
  intros Hext. unfold update_where. apply map_fmap_ext. intros k r _.
  by rewrite Hext.
Qed.

Lemma update_where_none {R} (test : R → bool) (f : R → R) (t : gmap string R) :
  (∀ r, test r = false) → update_where test f t = t.
Proof.
  intros Hnone. unfold update_where.
  transitivity (id <$> t); [|apply map_fmap_id].
  apply map_fmap_ext. intros k r _. by rewrite Hnone.
Qed.

Lemma lookup_update_where {R} (test : R → bool) (f : R → R)
    (t : gmap string R) (k : string) (r : R) :
  t !! k = Some r →
  update_where test f t !! k = Some (if test r then f r else r).
Proof. intros Hk. unfold update_where. by rewrite lookup_fmap, Hk. Qed.

Lemma task_set_billable_idem b r :
  task_set_billable b (task_set_billable b r) = task_set_billable b r.
Proof. done. Qed.

Lemma project_set_billable_idem b r :
  project_set_billable b (project_set_billable b r) = project_set_billable b r.
Proof. done. Qed.

Lemma td_set_billable_idem b r :
  td_set_billable b (td_set_billable b r) = td_set_billable b r.
Proof. done. Qed.

Ltac run_step :=
  first [ apply runs_bind | apply runs_log | apply runs_gets
        | apply runs_modify | apply runs_ret ]; simpl.

Section cascade.

Variable row_order : list call → list string → list string.
Hypothesis row_order_complete : complete row_order.

Lemma elem_of_row_order {R} (history : list call) (col : R → string)
    (value : string) (t : gmap string R) (k : string) :
  k ∈ row_order history (select col value t) ↔ selected col value t k.
Proof. by rewrite (row_order_complete history _), elem_of_select. Qed.

(** ** update_linked_tasks *)

Lemma update_linked_tasks_runs (p : string) (b : Z) (s : db) :
  runs (update_linked_tasks row_order p b) s (λ names s',
    (∀ t, t ∈ names ↔ selected task_project p (tasks s) t) ∧
    projects s' = projects s ∧
    timesheet_details s' = timesheet_details s ∧
    tasks s' = update_where (λ t, bool_decide (task_project t = p))
                 (task_set_billable b) (tasks s) ∧
    calls s ⊆ calls s' ∧
    (∀ t, t ∈ names → Save "Task" t ∈ calls s')).
Proof.
  unfold update_linked_tasks, get_all_tasks.
  change (task_column "project") with (Some task_project).
  do 5 run_step.
  set (names := row_order _ (select task_project p (tasks s))).
  assert (Hnames : ∀ t, t ∈ names ↔ selected task_project p (tasks s) t)
    by (intros t; apply elem_of_row_order).
  eapply runs_mono.
  - apply (runs_for_each (λ done s',
      projects s' = projects s ∧
      timesheet_details s' = timesheet_details s ∧
      tasks s' = update_names (task_set_billable b) done (tasks s) ∧
      calls s ⊆ calls s' ∧
      (∀ t, t ∈ done → Save "Task" t ∈ calls s'))).
    + simpl. repeat split; [|by intros t ?%elem_of_nil].
      intros c Hc. apply elem_of_app. by left.
    + intros pre x s' Hx (Hp & Htd & Ht & Hc & Hsaved).
      unfold get_doc_task, save_task. do 4 run_step.
      assert (is_Some (tasks s' !! x)) as [doc Hdoc].
      { rewrite Ht. apply lookup_update_names_is_Some.
        apply Hnames in Hx as (r & Hr & _). by exists r. }
      run_step. rewrite Hdoc. do 4 run_step. repeat split; [done..| | |].
      * rewrite (alter_as_insert _ _ _ _ Hdoc), Ht.
        unfold update_names. by rewrite foldl_app.
      * intros c Hc'. apply elem_of_app. left. apply elem_of_app. left. auto.
      * intros t [Ht'|Ht']%elem_of_app.
        -- apply elem_of_app. left. apply elem_of_app. left. auto.
        -- apply list_elem_of_singleton in Ht' as ->.
           apply elem_of_app. right. by left.
  - intros [] s' (Hp & Htd & Ht & Hc & Hsaved). simpl. run_step.
    repeat split; [apply Hnames..|done|done| |done|done].
    rewrite Ht. by apply update_names_selected.
Qed.

(** ** update_linked_projects *)

Lemma project_column_set_billable (field : string) (col : project → string)
    (b : Z) (r : project) :
  project_column field = Some col → col (project_set_billable b r) = col r.
Proof.
  unfold project_column. intros Hcol.
  destruct (String.eqb field "project_type"); [by injection Hcol as <-|].
  destruct (String.eqb field "project_template"); [by injection Hcol as <-|done].
Qed.

Lemma update_linked_projects_runs (field : string) (col : project → string)
    (v : string) (b : Z) (s : db) :
  project_column field = Some col →
  runs (update_linked_projects row_order field v b) s (λ names s',
    (∀ p, p ∈ names ↔ selected col v (projects s) p) ∧
    projects s' = update_where (λ p, bool_decide (col p = v))
                    (project_set_billable b) (projects s) ∧
    tasks s' = update_where (λ t, bool_decide (task_project t ∈ names))
                 (task_set_billable b) (tasks s) ∧
    timesheet_details s' = timesheet_details s ∧
    calls s ⊆ calls s' ∧
    (∀ p, p ∈ names → Save "Project" p ∈ calls s') ∧
    (∀ t row, tasks s !! t = Some row → task_project row ∈ names →
              Save "Task" t ∈ calls s')).
Proof.
  intros Hcol. unfold update_linked_projects, get_all_projects. rewrite Hcol.
  do 5 run_step.
  set (names := row_order _ (select col v (projects s))).
  assert (Hnames : ∀ p, p ∈ names ↔ selected col v (projects s) p)
    by (intros p; apply elem_of_row_order).
  eapply runs_mono.
  - apply (runs_for_each (λ done s',
      projects s' = update_names (project_set_billable b) done (projects s) ∧
      tasks s' = update_where (λ t, bool_decide (task_project t ∈ done))
                   (task_set_billable b) (tasks s) ∧
      timesheet_details s' = timesheet_details s ∧
      calls s ⊆ calls s' ∧
      (∀ p, p ∈ done → Save "Project" p ∈ calls s') ∧
      (∀ t row, tasks s !! t = Some row → task_project row ∈ done →
                Save "Task" t ∈ calls s'))).
    + simpl. repeat split.
      * symmetry. by apply update_where_none.
      * intros c Hc. apply elem_of_app. by left.
      * by intros q ?%elem_of_nil.
      * by intros t row _ ?%elem_of_nil.
    + intros pre x s' Hx (Hp & Ht & Htd & Hc & Hsp & Hst).
      unfold get_doc_project, save_project. do 5 run_step.
      assert (is_Some (projects s' !! x)) as [doc Hdoc].
      { rewrite Hp. apply lookup_update_names_is_Some.
        apply Hnames in Hx as (r & Hr & _). by exists r. }
      rewrite Hdoc. do 6 run_step.
      eapply runs_mono; [apply update_linked_tasks_runs|].
      intros tnames s2 (Hn2 & Hp2 & Htd2 & Ht2 & Hc2 & Hs2). simpl in *.
      run_step.
      assert (Hkept : calls s' ⊆ calls s2).
      { intros c Hc'. apply Hc2. apply elem_of_app. left. apply elem_of_app. by left. }
      repeat split.
      * rewrite Hp2, (alter_as_insert _ _ _ _ Hdoc), Hp.
        unfold update_names. by rewrite foldl_app.
      * rewrite Ht2, Ht, update_where_twice by done.
        apply update_where_ext. intros r.
        destruct (decide (task_project r ∈ pre)) as [Hin|Hnin].
        -- rewrite (bool_decide_eq_true_2 _ Hin). simpl.
           rewrite bool_decide_eq_true_2; [done|]. apply elem_of_app. by left.
        -- rewrite (bool_decide_eq_false_2 _ Hnin). simpl.
           apply bool_decide_ext. rewrite elem_of_app, list_elem_of_singleton.
           tauto.
      * by rewrite Htd2.
      * intros c Hc'. auto.
      * intros q [Hq|Hq]%elem_of_app; [auto|].
        apply list_elem_of_singleton in Hq as ->.
        apply Hc2. apply elem_of_app. right. by left.
      * intros t row Hrow [Hin|Hin]%elem_of_app; [eauto|].
        apply list_elem_of_singleton in Hin.
        apply Hs2, Hn2.
        exists (if bool_decide (task_project row ∈ pre)
                then task_set_billable b row else row).
        split; [by rewrite Ht, (lookup_update_where _ _ _ _ _ Hrow)|].
        by destruct (bool_decide _).
  - intros [] s' (Hp & Ht & Htd & Hc & Hsp & Hst). simpl. run_step.
    repeat split; [apply Hnames..| |done|done|done|done|done].
    rewrite Hp. apply update_names_selected; [done|apply Hnames].
Qed.

(** ** update_timesheet_logs *)

Lemma time_logs_runs (ps : list string) (s : db) :
  runs (map_m (get_project_time_logs row_order) ps) s (λ logs s',
    Forall2 (λ p names,
               ∀ k, k ∈ names ↔ selected td_project p (timesheet_details s) k)
            ps logs ∧
    same_tables s s' ∧ calls s ⊆ calls s').
Proof.
  revert s. induction ps as [|p ps IH]; intros s; simpl.
  - run_step. by repeat split; [constructor|..].
  - unfold get_project_time_logs at 1, get_all_timesheet_details.
    change (timesheet_detail_column "project") with (Some td_project).
    do 5 run_step. eapply runs_mono; [apply IH|].
    intros logs s' (Hlogs & (Hp & Ht & Htd) & Hc). simpl in *. run_step.
    repeat split; [|done..|].
    + constructor; [|done]. intros k. apply elem_of_row_order.
    + intros c Hc'. apply Hc, elem_of_app. by left.
Qed.

Lemma set_billable_runs (names : list string) (b : Z) (s : db) :
  runs (for_each names (λ log, set_value_timesheet_detail_billable log b)) s
    (λ _ s',
      projects s' = projects s ∧ tasks s' = tasks s ∧
      timesheet_details s' =
        update_names (td_set_billable b) names (timesheet_details s) ∧
      calls s' =
        calls s ++ map (λ n, SetValue "Timesheet Detail" n "billable" b) names).
Proof.
  revert s. induction names as [|n names IH]; intros s; simpl.
  - run_step. by rewrite app_nil_r.
  - unfold set_value_timesheet_detail_billable at 1. do 4 run_step.
    eapply runs_mono; [apply IH|].
    intros [] s' (Hp & Ht & Htd & Hc). simpl in *.
    repeat split; [done..|]. by rewrite Hc, <- app_assoc.
Qed.

Lemma elem_of_time_logs (ps : list string) (logs : list (list string))
    (t : gmap string timesheet_detail) (l : string) :
  Forall2 (λ p names, ∀ k, k ∈ names ↔ selected td_project p t k) ps logs →
  l ∈ concat logs ↔ ∃ row, t !! l = Some row ∧ td_project row ∈ ps.
Proof.
  induction 1 as [|p names ps logs Hnames _ IH]; simpl.
  - split; [by intros ?%elem_of_nil|]. by intros (row & _ & ?%elem_of_nil).
  - rewrite elem_of_app, IH, Hnames. unfold selected. split.
    + intros [(row & Hrow & <-)|(row & Hrow & Hin)]; exists row;
        (split; [done|]); [by left|by right].
    + intros (row & Hrow & Hin). apply elem_of_cons in Hin as [Heq|Hin].
      * left. by exists row.
      * right. by exists row.
Qed.

Lemma update_timesheet_logs_cascade_runs (ref_dt ref_dn : string) (b : Z) (s : db)
    (col : project → string) :
  (ref_dt = "Project Type" ∧ col = project_type) ∨
  (ref_dt = "Project Template" ∧ col = project_template) →
  runs (update_timesheet_logs row_order ref_dt ref_dn b) s (λ _ s',
    projects s' = update_where (λ p, bool_decide (col p = ref_dn))
                    (project_set_billable b) (projects s) ∧
    (∃ names : list string,
       (∀ p, p ∈ names ↔ selected col ref_dn (projects s) p) ∧
       tasks s' = update_where (λ t, bool_decide (task_project t ∈ names))
                    (task_set_billable b) (tasks s) ∧
       (∀ p, p ∈ names → Save "Project" p ∈ calls s') ∧
       (∀ t row, tasks s !! t = Some row → task_project row ∈ names →
                 Save "Task" t ∈ calls s') ∧
       ∃ logs : list string,
         (∀ l, l ∈ logs ↔ ∃ row, timesheet_details s !! l = Some row ∧
                                 td_project row ∈ names) ∧
         timesheet_details s' =
           update_names (td_set_billable b) logs (timesheet_details s) ∧
         (∀ l, l ∈ logs → SetValue "Timesheet Detail" l "billable" b ∈ calls s'))).
Proof.
  intros Href.
  assert (Hcol : project_column (scrub ref_dt) = Some col)
    by (by destruct Href as [[-> ->]|[-> ->]]).
  unfold update_timesheet_logs.
  replace (bool_decide (ref_dt ∈ ["Project"; "Task"])) with false
    by (by destruct Href as [[-> ->]|[-> ->]]).
  replace (bool_decide (ref_dt ∈ ["Project Type"; "Project Template"])) with true
    by (by destruct Href as [[-> ->]|[-> ->]]).
  do 2 run_step.
  eapply runs_mono; [apply (update_linked_projects_runs _ col), Hcol|].
  intros ps s1 (Hps & Hp1 & Ht1 & Htd1 & Hc1 & Hsp1 & Hst1). simpl.
  run_step. eapply runs_mono; [apply time_logs_runs|].
  intros logs s2 (Hlogs & (Hp2 & Ht2 & Htd2) & Hc2). simpl. run_step.
  eapply runs_mono; [apply set_billable_runs|].
  intros [] s3 (Hp3 & Ht3 & Htd3 & Hc3). simpl.
  split; [by rewrite Hp3, Hp2|].
  exists ps. split; [done|]. split; [by rewrite Ht3, Ht2|].
  split; [|split].
  - intros p Hp. rewrite Hc3. apply elem_of_app. left. auto.
  - intros t row Hrow Hin. rewrite Hc3. apply elem_of_app. left. eauto.
  - rewrite Htd1 in Hlogs. exists (concat logs). split; [|split].
    + intros l. by apply elem_of_time_logs.
    + by rewrite Htd3, Htd2, Htd1.
    + intros l Hl. rewrite Hc3. apply elem_of_app. right.
      apply list_elem_of_fmap. by exists l.
Qed.

Lemma update_timesheet_logs_direct_runs (ref_dt ref_dn : string) (b : Z) (s : db)
    (col : timesheet_detail → string) :
  (ref_dt = "Task" ∧ col = td_task) ∨ (ref_dt = "Project" ∧ col = td_project) →
  runs (update_timesheet_logs row_order ref_dt ref_dn b) s (λ _ s',
    projects s' = projects s ∧ tasks s' = tasks s ∧
    timesheet_details s' =
      update_where (λ row, bool_decide (col row = ref_dn))
        (td_set_billable b) (timesheet_details s) ∧
    ∃ names : list string,
      (∀ l, l ∈ names ↔ selected col ref_dn (timesheet_details s) l) ∧
      calls s' =
        (calls s ++ [GetAll "Timesheet Detail" (scrub ref_dt) ref_dn]) ++
        map (λ n, SetValue "Timesheet Detail" n "billable" b) names).
Proof.
  intros Href.
  assert (Hcol : timesheet_detail_column (scrub ref_dt) = Some col)
    by (by destruct Href as [[-> ->]|[-> ->]]).
  unfold update_timesheet_logs, get_all_timesheet_details.
  replace (bool_decide (ref_dt ∈ ["Project"; "Task"])) with true
    by (by destruct Href as [[-> ->]|[-> ->]]).
  rewrite Hcol. do 4 run_step.
  set (names := row_order _ (select col ref_dn (timesheet_details s))).
  assert (Hnames : ∀ l, l ∈ names ↔ selected col ref_dn (timesheet_details s) l)
    by (intros l; apply elem_of_row_order).
  eapply runs_mono; [apply set_billable_runs|].
  intros [] s' (Hp & Ht & Htd & Hc). simpl in *.
  split; [done|]. split; [done|]. split.
  - rewrite Htd. by apply update_names_selected.
  - by exists names.
Qed.

End cascade.

(** C5 -- with a Project Type or a Project Template as reference,
    [update_timesheet_logs] sets the billable flag of, and saves, every
    Project whose field names the reference and every Task of such a
    Project, and sets the billable field of every Timesheet Detail row of
    such a Project, in whatever order the host returns the rows. *)
Theorem update_timesheet_logs_cascade
    (row_order : list call → list string → list string)
    (ref_dt ref_dn : string) (b : Z) (s : db) (col : project → string) :
  complete row_order →
  (ref_dt = "Project Type" ∧ col = project_type) ∨
  (ref_dt = "Project Template" ∧ col = project_template) →
  ∃ s',
    update_timesheet_logs row_order ref_dt ref_dn b s = Ok (tt, s') ∧
    (∀ p row, projects s !! p = Some row → col row = ref_dn →
       projects s' !! p = Some (project_set_billable b row) ∧
       Save "Project" p ∈ calls s') ∧
    (∀ t row, tasks s !! t = Some row →
       selected col ref_dn (projects s) (task_project row) →
       tasks s' !! t = Some (task_set_billable b row) ∧
       Save "Task" t ∈ calls s') ∧
    (∀ l row, timesheet_details s !! l = Some row →
       selected col ref_dn (projects s) (td_project row) →
       timesheet_details s' !! l = Some (td_set_billable b row) ∧
       SetValue "Timesheet Detail" l "billable" b ∈ calls s').
Proof.
  intros Hcomplete Href.
  destruct (update_timesheet_logs_cascade_runs row_order Hcomplete
              ref_dt ref_dn b s col Href)
    as ([] & s' & Hrun & Hp & names & Hnames & Ht & Hsp & Hst
        & logs & Hlogs & Htd & Hset).
  exists s'. split; [done|]. split; [|split].
  - intros p row Hrow Hcolrow. split.
    + by rewrite Hp, (lookup_update_where _ _ _ _ _ Hrow), bool_decide_eq_true_2.
    + apply Hsp, Hnames. by exists row.
  - intros t row Hrow Hsel%Hnames. split.
    + by rewrite Ht, (lookup_update_where _ _ _ _ _ Hrow), bool_decide_eq_true_2.
    + eauto.
  - intros l row Hrow Hsel%Hnames.
    assert (Hl : l ∈ logs) by (apply Hlogs; eauto). split; [|auto].
    rewrite Htd, lookup_update_names by apply td_set_billable_idem.
    by rewrite decide_True, Hrow.
Qed.

Lemma update_timesheet_logs_cascade_witness :
  ∃ s',
    update_timesheet_logs (λ _ names, names) "Project Type" "Internal" 1
      Fixtures.billable_db = Ok (tt, s') ∧
    projects s' !! "P2" = Some (Project "Internal" "" 1) ∧
    tasks s' !! "T4" = Some (Task "P2" 1) ∧
    timesheet_details s' !! "D2" = Some (TimesheetDetail "P2" "T3" 1).
Proof.
  destruct (update_timesheet_logs_cascade (λ _ names, names)
              "Project Type" "Internal" 1 Fixtures.billable_db project_type
              (λ _ names, reflexivity names) (or_introl (conj eq_refl eq_refl)))
    as (s' & Hrun & Hp & Ht & Htd).
  exists s'. split; [done|]. split; [|split].
  - apply (Hp "P2" (Project "Internal" "" 0)); reflexivity.
  - apply (Ht "T4" (Task "P2" 0)); [reflexivity|].
    exists (Project "Internal" "" 0). split; reflexivity.
  - apply (Htd "D2" (TimesheetDetail "P2" "T3" 0)); [reflexivity|].
    exists (Project "Internal" "" 0). split; reflexivity.
Defined.

(** C6 -- with a Task (or a Project) as reference, [update_timesheet_logs]
    sets the billable field of exactly the Timesheet Detail rows whose
    task (or project) field is the reference; it leaves every other row,
    every Project and every Task as they were, and its only calls are the
    query and one [set_value] for each such row. *)
Theorem update_timesheet_logs_direct
    (row_order : list call → list string → list string)
    (ref_dt ref_dn : string) (b : Z) (s : db) (col : timesheet_detail → string) :
  complete row_order →
  (ref_dt = "Task" ∧ col = td_task) ∨ (ref_dt = "Project" ∧ col = td_project) →
  ∃ s',
    update_timesheet_logs row_order ref_dt ref_dn b s = Ok (tt, s') ∧
    projects s' = projects s ∧
    tasks s' = tasks s ∧
    (∀ l, timesheet_details s' !! l =
            (λ row, if decide (col row = ref_dn)
                    then td_set_billable b row else row)
            <$> timesheet_details s !! l) ∧
    (∀ c, c ∈ calls s' ↔
            c ∈ calls s ∨
            c = GetAll "Timesheet Detail" (scrub ref_dt) ref_dn ∨
            ∃ l, selected col ref_dn (timesheet_details s) l ∧
                 c = SetValue "Timesheet Detail" l "billable" b).
Proof.
  intros Hcomplete Href.
  destruct (update_timesheet_logs_direct_runs row_order Hcomplete
              ref_dt ref_dn b s col Href)
    as ([] & s' & Hrun & Hp & Ht & Htd & names & Hnames & Hc).
  exists s'. repeat split; [done..| | |].
  - intros l. rewrite Htd. unfold update_where. rewrite lookup_fmap.
    destruct (timesheet_details s !! l) as [row|]; [|done]. simpl.
    destruct (decide (col row = ref_dn)) as [Heq|Hne];
      [by rewrite bool_decide_eq_true_2|by rewrite bool_decide_eq_false_2].
  - rewrite Hc, !elem_of_app, list_elem_of_singleton, list_elem_of_fmap.
    intros [[?|?]|(l & -> & Hl)]; [auto..|].
    right; right. exists l. by apply Hnames in Hl.
  - rewrite Hc, !elem_of_app, list_elem_of_singleton, list_elem_of_fmap.
    intros [?|[?|(l & Hl & ->)]]; [auto..|].
    right. exists l. by apply Hnames in Hl.
Qed.

Lemma update_timesheet_logs_direct_witness :
  ∃ s',
    update_timesheet_logs (λ _ names, names) "Task" "T3" 1 Fixtures.billable_db
      = Ok (tt, s') ∧
    projects s' = projects Fixtures.billable_db ∧
    tasks s' = tasks Fixtures.billable_db ∧
    timesheet_details s' !! "D2" = Some (TimesheetDetail "P2" "T3" 1) ∧
    timesheet_details s' !! "D1" = Some (TimesheetDetail "P1" "T1" 0).
Proof.
  destruct (update_timesheet_logs_direct (λ _ names, names)
              "Task" "T3" 1 Fixtures.billable_db td_task
              (λ _ names, reflexivity names) (or_introl (conj eq_refl eq_refl)))
    as (s' & Hrun & Hp & Ht & Htd & _).
  exists s'. split; [exact Hrun|]. split; [exact Hp|]. split; [exact Ht|].
  split; rewrite Htd; reflexivity.
Defined.

(** C10 -- with any other reference doctype, [update_timesheet_logs]
    returns normally and leaves the store as it was: no table is changed
    and no call is made to it. *)
Theorem update_timesheet_logs_unrecognised
    (row_order : list call → list string → list string)
    (ref_dt ref_dn : string) (b : Z) (s : db) :
  ref_dt ∉ ["Project"; "Task"; "Project Type"; "Project Template"] →
  update_timesheet_logs row_order ref_dt ref_dn b s = Ok (tt, s).
Proof.
  intros Hout. unfold update_timesheet_logs.
  rewrite !bool_decide_eq_false_2; [done| |].
  - intros Hin. apply Hout. by do 2 right.
  - intros Hin. apply Hout. rewrite !elem_of_cons in Hin.
    destruct Hin as [->|[->|[]%elem_of_nil]]; [left|right; left].
Qed.

Lemma update_timesheet_logs_unrecognised_witness :
  update_timesheet_logs (λ _ names, names) "Customer" "C1" 1 Fixtures.billable_db
    = Ok (tt, Fixtures.billable_db).
Proof.
  apply update_timesheet_logs_unrecognised.
  apply (bool_decide_unpack _). reflexivity.
Defined.

End BillableFacts.

(* ===================================================================== *)
(** * Facts about the linked-document traversal                           *)
(* ===================================================================== *)

Module LinkedFacts.
Import Linked.

(** ** The sort *)

Lemma insert_by_link_count_perm (x : node) (l : list node) :
  insert_by_link_count x l ≡ₚ x :: l.
Proof.
  induction l as [|y l IH]; simpl; [done|].
  destruct (link_count x <=? link_count y); [done|].
  rewrite IH. apply Permutation_swap.
Qed.

Lemma sort_by_link_count_perm (l : list node) : sort_by_link_count l ≡ₚ l.
Proof.
  induction l as [|x l IH]; simpl; [done|].
  by rewrite insert_by_link_count_perm, IH.
Qed.

Lemma insert_by_link_count_ascending (x : node) (l : list node) :
  ascending l → ascending (insert_by_link_count x l).
Proof.
  unfold ascending. induction 1 as [|y l Hl IH Hy]; simpl.
  - by repeat constructor.
  - destruct (Nat.leb_spec (link_count x) (link_count y)) as [Hle|Hgt].
    + constructor; [by constructor|]. constructor; [done|].
      eapply Forall_impl; [exact Hy|]. intros z Hz. simpl in *. lia.
    + constructor; [done|].
      rewrite insert_by_link_count_perm. constructor; [lia|done].
Qed.

Lemma sort_by_link_count_ascending (l : list node) :
  ascending (sort_by_link_count l).
Proof.
  induction l as [|x l IH]; simpl; [constructor|].
  by apply insert_by_link_count_ascending.
Qed.

(** The sort is stable: documents with equal counts keep their order. *)
Lemma insert_by_link_count_stable (k : nat) (x : node) (l : list node) :
  ascending l →
  filter (λ d, link_count d = k) (insert_by_link_count x l) =
  filter (λ d, link_count d = k) (x :: l).
Proof.
  unfold ascending. induction 1 as [|y l Hl IH Hy]; simpl; [done|].
  destruct (Nat.leb_spec (link_count x) (link_count y)) as [Hle|Hgt]; [done|].
  rewrite (filter_cons _ y), IH, !filter_cons.
  destruct (decide (link_count x = k)) as [Hx|Hx]; [|done].
  destruct (decide (link_count y = k)) as [Hy'|Hy']; [lia|done].
Qed.

Lemma sort_by_link_count_stable (k : nat) (l : list node) :
  filter (λ d, link_count d = k) (sort_by_link_count l) =
  filter (λ d, link_count d = k) l.
Proof.
  induction l as [|x l IH]; simpl; [done|].
  rewrite insert_by_link_count_stable by apply sort_by_link_count_ascending.
  by rewrite !filter_cons, IH.
Qed.

(** Two ascending lists with the same documents of each count, in the
    same order, are equal: the result of a stable sort is determined. *)
Lemma ascending_stable_unique (l1 l2 : list node) :
  ascending l1 → ascending l2 →
  (∀ k, filter (λ d, link_count d = k) l1 = filter (λ d, link_count d = k) l2) →
  l1 = l2.
Proof.
  unfold ascending. intros H1. revert l2.
  induction H1 as [|x l1 Hl1 IH Hx]; intros l2 H2 Hsame.
  - destruct l2 as [|y l2]; [done|].
    specialize (Hsame (link_count y)). rewrite filter_cons_True in Hsame; done.
  - destruct H2 as [|y l2 Hl2 Hy].
    { specialize (Hsame (link_count x)). rewrite filter_cons_True in Hsame; done. }
    assert (Hxy : link_count x = link_count y).
    { apply Nat.le_antisymm.
      - assert (Hin : y ∈ x :: l1).
        { pose proof (Hsame (link_count y)) as Hk.
          rewrite (filter_cons_True _ y) in Hk by done.
          assert (Hin : y ∈ filter (λ d, link_count d = link_count y) (x :: l1))
            by (rewrite Hk; by left).
          by apply list_elem_of_filter in Hin as [_ ?]. }
        apply elem_of_cons in Hin as [->|Hin]; [done|].
        rewrite Forall_forall in Hx. by apply Hx.
      - assert (Hin : x ∈ y :: l2).
        { pose proof (Hsame (link_count x)) as Hk.
          rewrite (filter_cons_True _ x) in Hk by done.
          assert (Hin : x ∈ filter (λ d, link_count d = link_count x) (y :: l2))
            by (rewrite <- Hk; by left).
          by apply list_elem_of_filter in Hin as [_ ?]. }
        apply elem_of_cons in Hin as [->|Hin]; [done|].
        rewrite Forall_forall in Hy. by apply Hy. }
    pose proof (Hsame (link_count x)) as Hhead.
    rewrite filter_cons_True in Hhead by done.
    rewrite (filter_cons_True _ y) in Hhead by done.
    injection Hhead as -> Htail. f_equal. apply IH; [done|].
    intros k. destruct (decide (link_count y = k)) as [<-|Hk]; [done|].
    specialize (Hsame k). by rewrite !filter_cons_False in Hsame.
Qed.

(** [sort_by_link_count] is the stable sort by [link_count]. *)
Lemma sort_by_link_count_unique (l sorted : list node) :
  ascending sorted →
  (∀ k, filter (λ d, link_count d = k) sorted = filter (λ d, link_count d = k) l) →
  sorted = sort_by_link_count l.
Proof.
  intros Hsorted Hstable.
  apply ascending_stable_unique; [done|apply sort_by_link_count_ascending|].
  intros k. by rewrite Hstable, sort_by_link_count_stable.
Qed.

(** ** Runs of the loops under two different recursive calls *)

Section related.
Context (R : outcome (list node * nat) → outcome (list node * nat) → Prop).
Hypothesis R_refl : ∀ o, R o o.
Hypothesis R_done : ∀ a o, R (Done a) o → o = Done a.
Hypothesis R_halt :
  ∀ i o (k : list node * nat → outcome (list node * nat)),
    R (Halt i) o → R (Halt i) (obind o k).

Lemma obind_related o1 o2 (k1 k2 : list node * nat → outcome (list node * nat)) :
  R o1 o2 → (∀ a, R (k1 a) (k2 a)) → R (obind o1 k1) (obind o2 k2).
Proof.
  intros Ho Hk. destruct o1 as [a|i]; simpl.
  - rewrite (R_done _ _ Ho). apply Hk.
  - by apply R_halt.
Qed.

Context (rec1 rec2 : string → string → option (list node)
                     → outcome (list node * nat)).
Hypothesis rec_related : ∀ d n docs, R (rec1 d n docs) (rec2 d n docs).

Lemma visit_link_related d l st :
  R (visit_link rec1 d l st) (visit_link rec2 d l st).
Proof.
  unfold visit_link. destruct st as [docs c].
  destruct (negb (validate_linked_doc d)); [apply R_refl|].
  destruct (bool_decide (link_name l ∈ map name docs)); [apply R_refl|].
  apply obind_related; [apply rec_related|]. intros a. apply R_refl.
Qed.

Lemma visit_links_related d ls st :
  R (visit_links rec1 d ls st) (visit_links rec2 d ls st).
Proof.
  revert st. induction ls as [|l ls IH]; intros st; simpl; [apply R_refl|].
  apply obind_related; [apply visit_link_related|apply IH].
Qed.

Lemma visit_items_related items st :
  R (visit_items rec1 items st) (visit_items rec2 items st).
Proof.
  revert st. induction items as [|[d ls] items IH]; intros st; simpl;
    [apply R_refl|].
  apply obind_related; [apply visit_links_related|apply IH].
Qed.

Lemma body_related g d n docs :
  R (body rec1 g d n docs) (body rec2 g d n docs).
Proof.
  unfold body. apply obind_related; [apply visit_items_related|].
  intros a. apply R_refl.
Qed.
End related.

Lemma fuel_prefix_done {A} (a : A) (o : outcome A) :
  fuel_prefix (Done a) o → o = Done a.
Proof. by intros [?|<-]. Qed.

Lemma fuel_prefix_halt {A B} (i : interrupt) (o : outcome A) (k : A → outcome B) :
  fuel_prefix (Halt i) o → fuel_prefix (Halt i) (obind o k).
Proof. intros [[= ->]|<-]; [by left|by right]. Qed.

Lemma fuel_prefix_refl {A} (o : outcome A) : fuel_prefix o o.
Proof. by right. Qed.

Lemma fuel_prefix_trans {A} (o1 o2 o3 : outcome A) :
  fuel_prefix o1 o2 → fuel_prefix o2 o3 → fuel_prefix o1 o3.
Proof. intros [H12|H12] H23; rewrite H12; [by left|done]. Qed.

(** More fuel never changes what a run returns. *)
Lemma get_linked_documents_S (fuel : nat) g d n docs :
  fuel_prefix (get_linked_documents fuel g d n docs)
              (get_linked_documents (S fuel) g d n docs).
Proof.
  revert d n docs. induction fuel as [|fuel IH]; intros d n docs; [by left|].
  change (fuel_prefix (body (get_linked_documents fuel g) g d n docs)
                      (body (get_linked_documents (S fuel) g) g d n docs)).
  apply body_related;
    [apply fuel_prefix_refl|apply fuel_prefix_done| |apply IH].
  intros i o k. apply fuel_prefix_halt.
Qed.

Lemma get_linked_documents_mono (fuel fuel' : nat) g d n docs :
  fuel ≤ fuel' →
  fuel_prefix (get_linked_documents fuel g d n docs)
              (get_linked_documents fuel' g d n docs).
Proof.
  induction 1 as [|fuel' _ IH]; [apply fuel_prefix_refl|].
  eapply fuel_prefix_trans; [exact IH|apply get_linked_documents_S].
Qed.

Lemma get_linked_documents_more_fuel (fuel fuel' : nat) g d n docs a :
  get_linked_documents fuel g d n docs = Done a → fuel ≤ fuel' →
  get_linked_documents fuel' g d n docs = Done a.
Proof.
  intros Hrun Hle.
  destruct (get_linked_documents_mono fuel fuel' g d n docs Hle) as [Hout|Heq];
    congruence.
Qed.

Lemma traverse_S (fuel : nat) g stack d n docs :
  fuel_prefix (traverse fuel g stack d n docs)
              (traverse (S fuel) g stack d n docs).
Proof.
  revert stack d n docs.
  induction fuel as [|fuel IH]; intros stack d n docs; [by left|].
  change (fuel_prefix
    (if bool_decide ((d, n) ∈ stack) then Halt (Reentered d n)
     else body (traverse fuel g ((d, n) :: stack)) g d n docs)
    (if bool_decide ((d, n) ∈ stack) then Halt (Reentered d n)
     else body (traverse (S fuel) g ((d, n) :: stack)) g d n docs)).
  destruct (bool_decide ((d, n) ∈ stack)); [apply fuel_prefix_refl|].
  apply body_related;
    [apply fuel_prefix_refl|apply fuel_prefix_done| |apply IH].
  intros i o k. apply fuel_prefix_halt.
Qed.

Lemma traverse_mono (fuel fuel' : nat) g stack d n docs :
  fuel ≤ fuel' →
  fuel_prefix (traverse fuel g stack d n docs) (traverse fuel' g stack d n docs).
Proof.
  induction 1 as [|fuel' _ IH]; [apply fuel_prefix_refl|].
  eapply fuel_prefix_trans; [exact IH|apply traverse_S].
Qed.

(** What the watched run returns, the code returns. *)
Lemma traverse_returns_as (fuel : nat) g stack d n docs :
  returns_as (traverse fuel g stack d n docs) (get_linked_documents fuel g d n docs).
Proof.
  revert stack d n docs.
  induction fuel as [|fuel IH]; intros stack d n docs; [by intros a|].
  simpl. destruct (bool_decide ((d, n) ∈ stack)); [by intros a|].
  apply body_related.
  - by intros o a.
  - intros a o Ho. by apply Ho.
  - by intros i o k _ a.
  - intros d' n' docs'. apply IH.
Qed.

(** A run of the watched traversal that returns shows that no run of it
    re-enters a document in progress. *)
Lemma reentry_free_by_run (fuel : nat) g d n docs a :
  traverse fuel g [] d n docs = Done a → reentry_free g d n docs.
Proof.
  intros Hrun fuel' d' n' Hre.
  destruct (Nat.le_ge_cases fuel fuel') as [Hle|Hge].
  - destruct (traverse_mono fuel fuel' g [] d n docs Hle); congruence.
  - destruct (traverse_mono fuel' fuel g [] d n docs Hge); congruence.
Qed.

(** ** Counting *)

Lemma visit_links_cons rec d l ls st :
  visit_links rec d (l :: ls) st =
    obind (visit_link rec d l st) (visit_links rec d ls).
Proof. done. Qed.

Lemma visit_items_cons rec d ls items st :
  visit_items rec ((d, ls) :: items) st =
    obind (visit_links rec d ls st) (visit_items rec items).
Proof. done. Qed.

Lemma visit_link_count rec d l docs c docs' c' :
  visit_link rec d l (docs, c) = Done (docs', c') →
  c' = c + (if validate_linked_doc d then 1 else 0).
Proof.
  unfold visit_link. destruct (validate_linked_doc d); simpl.
  - destruct (bool_decide _); [intros [= _ <-]; lia|].
    destruct (rec d (link_name l) (Some docs)) as [links|]; [|done].
    simpl. intros [= _ <-]. lia.
  - intros [= _ <-]. lia.
Qed.

Lemma visit_links_count rec d ls docs c docs' c' :
  visit_links rec d ls (docs, c) = Done (docs', c') →
  c' = c + (if validate_linked_doc d then length ls else 0).
Proof.
  revert docs c. induction ls as [|l ls IH]; intros docs c.
  - intros [= _ <-]. destruct (validate_linked_doc d); simpl; lia.
  - rewrite visit_links_cons.
    destruct (visit_link rec d l (docs, c)) as [[docs1 c1]|] eqn:Hl; [|done].
    simpl. intros Hrest. apply IH in Hrest. apply visit_link_count in Hl.
    destruct (validate_linked_doc d); simpl; lia.
Qed.

Lemma visit_items_count rec items docs c docs' c' :
  visit_items rec items (docs, c) = Done (docs', c') →
  c' = c + accepted_links items.
Proof.
  revert docs c. induction items as [|[d ls] items IH]; intros docs c.
  - intros [= _ <-]. unfold accepted_links. simpl. lia.
  - rewrite visit_items_cons.
    destruct (visit_links rec d ls (docs, c)) as [[docs1 c1]|] eqn:Hl; [|done].
    simpl. intros Hrest. apply IH in Hrest. apply visit_links_count in Hl.
    unfold accepted_links in *. simpl. lia.
Qed.

Lemma visit_links_none rec d ls st :
  validate_linked_doc d = false ∨ ls = [] → visit_links rec d ls st = Done st.
Proof.
  intros [Hd| ->]; [|done]. revert st.
  induction ls as [|l ls IH]; intros [docs c]; [done|].
  rewrite visit_links_cons. unfold visit_link. rewrite Hd. simpl. apply IH.
Qed.

Lemma visit_items_none rec items st :
  Forall (λ item, validate_linked_doc item.1 = false ∨ item.2 = []) items →
  visit_items rec items st = Done st.
Proof.
  induction 1 as [|[d ls] items Hitem _ IH]; [done|].
  rewrite visit_items_cons, visit_links_none by done. apply IH.
Qed.

Lemma body_none rec g d n :
  Forall (λ item, validate_linked_doc item.1 = false ∨ item.2 = [])
         (get_linked_docs g d n) →
  body rec g d n None = Done ([], 0).
Proof. intros Hnone. unfold body. by rewrite visit_items_none. Qed.

Lemma get_linked_documents_result (fuel : nat) g d n docs ds count :
  get_linked_documents fuel g d n docs = Done (ds, count) →
  ascending ds ∧ count = accepted_links (get_linked_docs g d n).
Proof.
  destruct fuel as [|fuel]; [done|]. simpl. unfold body.
  destruct (visit_items _ _ _) as [[docs1 c1]|] eqn:Hitems; [|done].
  simpl. intros [= <- <-]. split; [apply sort_by_link_count_ascending|].
  by apply visit_items_count in Hitems.
Qed.

(** ** Where a run stops *)

Lemma visit_link_halt rec d l st i :
  visit_link rec d l st = Halt i →
  validate_linked_doc d = true ∧ ∃ docs, rec d (link_name l) (Some docs) = Halt i.
Proof.
  unfold visit_link. destruct st as [docs c].
  destruct (validate_linked_doc d); [|done]. simpl.
  destruct (bool_decide _); [done|].
  destruct (rec d (link_name l) (Some docs)) as [links|j] eqn:Hrec; [done|].
  simpl. intros [= ->]. eauto.
Qed.

Lemma visit_links_halt rec d ls st i :
  visit_links rec d ls st = Halt i →
  validate_linked_doc d = true ∧
  ∃ l docs, l ∈ ls ∧ rec d (link_name l) (Some docs) = Halt i.
Proof.
  revert st. induction ls as [|l ls IH]; intros st; [done|].
  rewrite visit_links_cons.
  destruct (visit_link rec d l st) as [st'|j] eqn:Hl; simpl.
  - intros (Hd & l' & docs & Hin & Hrec)%IH. split; [done|].
    exists l', docs. split; [by right|done].
  - intros [= ->]. apply visit_link_halt in Hl as (Hd & docs & Hrec).
    split; [done|]. exists l, docs. split; [by left|done].
Qed.

Lemma visit_items_halt rec items st i :
  visit_items rec items st = Halt i →
  ∃ d ls l docs,
    (d, ls) ∈ items ∧ validate_linked_doc d = true ∧ l ∈ ls ∧
    rec d (link_name l) (Some docs) = Halt i.
Proof.
  revert st. induction items as [|[d ls] items IH]; intros st; [done|].
  rewrite visit_items_cons.
  destruct (visit_links rec d ls st) as [st'|j] eqn:Hl; simpl.
  - intros (d' & ls' & l & docs & Hin & Hrest)%IH.
    exists d', ls', l, docs. split; [by right|done].
  - intros [= ->]. apply visit_links_halt in Hl as (Hd & l & docs & Hin & Hrec).
    exists d, ls, l, docs. split; [by left|done].
Qed.

Lemma body_halt rec g d n docs i :
  body rec g d n docs = Halt i →
  ∃ y docs', edge g (d, n) y ∧ rec y.1 y.2 (Some docs') = Halt i.
Proof.
  unfold body.
  destruct (visit_items rec (get_linked_docs g d n) (default [] docs, 0))
    as [st|j] eqn:Hitems; [done|].
  simpl. intros [= ->].
  apply visit_items_halt in Hitems as (d' & ls & l & docs' & Hin & Hd & Hl & Hrec).
  exists (d', link_name l), docs'. split; [|done]. by exists ls, l.
Qed.

Lemma body_done rec g d n docs :
  (∀ y docs', edge g (d, n) y → ∃ a, rec y.1 y.2 (Some docs') = Done a) →
  ∃ a, body rec g d n docs = Done a.
Proof.
  intros Hrec. destruct (body rec g d n docs) as [a|i] eqn:Hbody; [by exists a|].
  apply body_halt in Hbody as (y & docs' & Hedge & Hhalt).
  destruct (Hrec y docs' Hedge) as [a Ha]. congruence.
Qed.

(** ** Termination *)

Lemma edge_documents g x y : edge g x y → y ∈ documents g.
Proof.
  destruct x as [d n], y as [d' n'].
  intros (ls & l & Hitem & _ & Hl & Hname). simpl in *.
  unfold get_linked_docs in Hitem.
  destruct (g !! (d, n)) as [items|] eqn:Hg; simpl in Hitem;
    [|by apply elem_of_nil in Hitem].
  unfold documents. apply list_elem_of_bind. exists ((d, n), items).
  split; [|by apply elem_of_map_to_list].
  right. unfold targets. apply list_elem_of_bind. exists (d', ls).
  split; [|done]. simpl. apply list_elem_of_fmap. exists l. by rewrite Hname.
Qed.

(** With more fuel than there are documents off the stack, the watched
    run does not run out of fuel. *)
Lemma traverse_fuel_enough g (U : list (string * string)) :
  (∀ x y, edge g x y → y ∈ U) →
  ∀ fuel stack d n docs,
    NoDup stack → stack ⊆ U → (d, n) ∈ U →
    length U < fuel + length stack →
    traverse fuel g stack d n docs ≠ Halt OutOfFuel.
Proof.
  intros Hclosed. induction fuel as [|fuel IH];
    intros stack d n docs Hnd Hsub Hin Hlen.
  - pose proof (submseteq_length _ _ (NoDup_submseteq _ _ Hnd Hsub)). lia.
  - simpl. destruct (bool_decide ((d, n) ∈ stack)) eqn:Hstack; [done|].
    apply bool_decide_eq_false in Hstack.
    intros (y & docs' & Hedge & Hrec)%body_halt.
    revert Hrec. destruct y as [d' n']. apply IH.
    + by constructor.
    + intros x [->|Hx]%elem_of_cons; auto.
    + by apply (Hclosed (d, n)).
    + simpl. lia.
Qed.

(** A call on a document in progress closes a cycle of allow-listed
    links. *)
Lemma traverse_reentered_cycle g fuel stack d n docs d' n' :
  (∀ x, x ∈ stack → tc (edge g) x (d, n)) →
  traverse fuel g stack d n docs = Halt (Reentered d' n') →
  ∃ x, tc (edge g) x x.
Proof.
  revert stack d n docs.
  induction fuel as [|fuel IH]; intros stack d n docs Hpath; [done|].
  simpl. destruct (bool_decide ((d, n) ∈ stack)) eqn:Hstack.
  - apply bool_decide_eq_true in Hstack. intros _. exists (d, n). auto.
  - intros (y & docs' & Hedge & Hrec)%body_halt.
    destruct y as [dy ny]. apply IH in Hrec; [done|].
    intros x [->|Hx]%elem_of_cons; [by apply tc_once|].
    eapply tc_r; [apply Hpath, Hx|done].
Qed.

Lemma reentry_free_terminates g d n docs :
  reentry_free g d n docs →
  ∃ fuel a, get_linked_documents fuel g d n docs = Done a.
Proof.
  intros Hfree. set (U := (d, n) :: documents g). exists (S (length U)).
  destruct (traverse (S (length U)) g [] d n docs) as [a|[|d' n']] eqn:Hrun.
  - exists a. by apply (traverse_returns_as _ _ _ _ _ _ _ Hrun).
  - exfalso. revert Hrun. apply (traverse_fuel_enough g U).
    + intros x y Hedge. right. by apply (edge_documents g x).
    + constructor.
    + by intros x ?%elem_of_nil.
    + by left.
    + simpl. lia.
  - by destruct (Hfree (S (length U)) d' n').
Qed.

Lemma acyclic_reentry_free g d n docs : acyclic g → reentry_free g d n docs.
Proof.
  intros Hacyclic fuel d' n' Hrun.
  apply traverse_reentered_cycle in Hrun as [x Hx]; [by apply (Hacyclic x)|].
  by intros x ?%elem_of_nil.
Qed.

Lemma acyclic_terminates g d n docs :
  acyclic g → ∃ fuel a, get_linked_documents fuel g d n docs = Done a.
Proof. intros Hacyclic. by apply reentry_free_terminates, acyclic_reentry_free. Qed.

(** An index whose allow-listed links all go down a rank has no cycle. *)
Lemma ranked_acyclic g (rank : string * string → nat) :
  (∀ x y, edge g x y → rank y < rank x) → acyclic g.
Proof.
  intros Hrank x Hcycle.
  assert (Hdown : ∀ a b, tc (edge g) a b → rank b < rank a).
  { induction 1 as [a b Hab|a b c Hab _ IH]; [by apply Hrank|].
    apply Hrank in Hab. lia. }
  apply Hdown in Hcycle. lia.
Qed.

Lemma index_p1_acyclic : acyclic Fixtures.index_p1.
Proof.
  apply (ranked_acyclic _ (λ x, if decide (x = ("Project", "P1")) then 1 else 0)).
  intros [d n] [d' n'] (ls & l & Hitem & Hvalid & Hl & Hname). simpl in *.
  unfold get_linked_docs, Fixtures.index_p1 in Hitem.
  rewrite lookup_insert in Hitem.
  destruct (decide (("Project", "P1") = (d, n))) as [[= <- <-]|Hne].
  - simpl in Hitem. apply elem_of_cons in Hitem as [[= -> ->]|Hitem].
    + apply list_elem_of_singleton in Hl as ->. simpl in Hname. subst n'.
      rewrite decide_False, decide_True by done. lia.
    + apply list_elem_of_singleton in Hitem as [= -> ->]. done.
  - rewrite lookup_singleton in Hitem.
    destruct (decide (("Project", "P2") = (d, n))) as [_|_]; simpl in Hitem.
    + apply list_elem_of_singleton in Hitem as [= -> ->]. done.
    + by apply elem_of_nil in Hitem.
Qed.

(** ** The cycle A -> B -> A *)

Lemma two_cycle_links_a dt_a a dt_b b :
  get_linked_docs (two_cycle dt_a a dt_b b) dt_a a = [(dt_b, [Link b 0])].
Proof. unfold get_linked_docs, two_cycle. by rewrite lookup_insert_eq. Qed.

Lemma two_cycle_links_b dt_a a dt_b b :
  (dt_a, a) ≠ (dt_b, b) →
  get_linked_docs (two_cycle dt_a a dt_b b) dt_b b = [(dt_a, [Link a 0])].
Proof.
  intros Hne. unfold get_linked_docs, two_cycle.
  by rewrite lookup_insert_ne, lookup_singleton_eq.
Qed.

Lemma two_cycle_diverges dt_a a dt_b b :
  validate_linked_doc dt_a = true → validate_linked_doc dt_b = true →
  (dt_a, a) ≠ (dt_b, b) →
  ∀ fuel docs, default [] docs = [] →
    get_linked_documents fuel (two_cycle dt_a a dt_b b) dt_a a docs
      = Halt OutOfFuel ∧
    get_linked_documents fuel (two_cycle dt_a a dt_b b) dt_b b docs
      = Halt OutOfFuel.
Proof.
  intros Ha Hb Hne. induction fuel as [|fuel IH]; intros docs Hdocs; [done|].
  simpl. unfold body.
  rewrite Hdocs, two_cycle_links_a, (two_cycle_links_b _ _ _ _ Hne).
  simpl. unfold visit_link. rewrite Ha, Hb. simpl.
  destruct (IH (Some []) eq_refl) as [-> ->]. done.
Qed.

(** ** The accumulator across recursive calls *)

(** While the caller's [docs] is still empty, the callee works on a list
    of its own: the documents found under the first accepted link are not
    in the caller's result. *)
Example first_branch_not_shared :
  get_linked_documents 3 Fixtures.index_nested "Project" "P1" None
    = Done ([Node "Task" "T1" 0 1], 1).
Proof. reflexivity. Qed.

(** Once the caller's [docs] holds a node, the callee appends to it and
    sorts it in place. *)
Example later_branch_shared :
  get_linked_documents 3 Fixtures.index_nested_second "Project" "P1" None
    = Done ([Node "Task" "T0" 0 0; Node "Timesheet" "TS1" 1 0;
             Node "Task" "T1" 0 1], 2).
Proof. reflexivity. Qed.

(** ** Main results *)

Lemma allow_listed (d : string) :
  validate_linked_doc d = true ↔ d ∈ ["Project"; "Timesheet"; "Task"].
Proof. apply bool_decide_eq_true. Qed.

Lemma not_allow_listed (d : string) :
  validate_linked_doc d = false ↔ d ∉ ["Project"; "Timesheet"; "Task"].
Proof. apply bool_decide_eq_false. Qed.

Lemma visited_by_name (l : link) (docs : list node) :
  link_name l ∈ map name docs ↔ ∃ nd, nd ∈ docs ∧ name nd = link_name l.
Proof.
  rewrite list_elem_of_fmap. split.
  - intros (nd & Hname & Hin). by exists nd.
  - intros (nd & Hin & Hname). by exists nd.
Qed.

(** C1 -- [get_linked_documents(doctype, name)] returns [{docs: [],
    count: 0}] when the document has no linked records, and when all its
    linked records have doctypes outside the allow-list; whatever it
    returns has [docs] in ascending order of [link_count] and [count]
    equal to the number of allow-listed direct links; it does return on
    every acyclic index; and for Project P1 linked to Task T1 and to a
    Sales Invoice it returns the single node of T1 with count 1. *)
Theorem get_linked_documents_spec (g : graph) (doctype name : string) :
  (Forall (λ item, item.2 = []) (get_linked_docs g doctype name) →
     ∀ fuel, get_linked_documents (S fuel) g doctype name None = Done ([], 0)) ∧
  (Forall (λ item, item.1 ∉ ["Project"; "Timesheet"; "Task"])
          (get_linked_docs g doctype name) →
     ∀ fuel, get_linked_documents (S fuel) g doctype name None = Done ([], 0)) ∧
  (∀ fuel docs ds count,
     get_linked_documents fuel g doctype name docs = Done (ds, count) →
     ascending ds ∧ count = accepted_links (get_linked_docs g doctype name)) ∧
  (acyclic g →
     ∀ docs, ∃ fuel ds,
       get_linked_documents fuel g doctype name docs
         = Done (ds, accepted_links (get_linked_docs g doctype name)) ∧
       ascending ds) ∧
  (∀ fuel, 2 ≤ fuel →
     get_linked_documents fuel Fixtures.index_p1 "Project" "P1" None
       = Done ([Node "Task" "T1" 0 0], 1)).
Proof.
  split; [|split; [|split; [|split]]].
  - intros Hnone fuel. simpl. apply body_none.
    eapply Forall_impl; [exact Hnone|]. intros item Hitem. by right.
  - intros Hnone fuel. simpl. apply body_none.
    eapply Forall_impl; [exact Hnone|]. intros item Hitem. left.
    by apply not_allow_listed.
  - intros fuel docs ds count. apply get_linked_documents_result.
  - intros Hacyclic docs.
    destruct (acyclic_terminates g doctype name docs Hacyclic) as (fuel & [ds c] & Hrun).
    destruct (get_linked_documents_result _ _ _ _ _ _ _ Hrun) as [Hsorted ->].
    by exists fuel, ds.
  - intros fuel Hfuel.
    by apply (get_linked_documents_more_fuel 2 fuel).
Qed.

Lemma get_linked_documents_spec_witness :
  get_linked_documents 1 Fixtures.index_p1 "Project" "P2" None = Done ([], 0) ∧
  get_linked_documents 1 Fixtures.index_p1 "Task" "T1" None = Done ([], 0) ∧
  get_linked_documents 3 Fixtures.index_p1 "Project" "P1" None
    = Done ([Node "Task" "T1" 0 0], 1) ∧
  (ascending [Node "Task" "T1" 0 0] ∧
   1 = accepted_links (get_linked_docs Fixtures.index_p1 "Project" "P1")) ∧
  (∃ fuel ds,
     get_linked_documents fuel Fixtures.index_p1 "Project" "P1" None
       = Done (ds, accepted_links (get_linked_docs Fixtures.index_p1 "Project" "P1")) ∧
     ascending ds).
Proof.
  destruct (get_linked_documents_spec Fixtures.index_p1 "Project" "P1")
    as (_ & _ & Hresult & Hacyclic & Hexample).
  split; [|split; [|split; [|split]]].
  - destruct (get_linked_documents_spec Fixtures.index_p1 "Project" "P2")
      as (_ & Hdisallowed & _).
    apply Hdisallowed. constructor; [|constructor].
    apply (bool_decide_unpack _). reflexivity.
  - destruct (get_linked_documents_spec Fixtures.index_p1 "Task" "T1")
      as (Hnone & _).
    apply Hnone. constructor.
  - apply Hexample. lia.
  - apply (Hresult 3 None). apply Hexample. lia.
  - apply Hacyclic, index_p1_acyclic.
Defined.

(** C3 -- [get_linked_documents] terminates whenever no call is made on
    a document whose own call is still in progress; in particular on
    every acyclic index, and on the index of [Fixtures.index_cut_cycle],
    whose cycle S -> Q -> P -> S is only reached once a node named P is
    in [docs].  A genuine cycle A -> B -> A is not guarded: on it the
    recursion never ends. *)
Theorem get_linked_documents_termination :
  (∀ g doctype name docs,
     reentry_free g doctype name docs →
     ∃ fuel a, get_linked_documents fuel g doctype name docs = Done a) ∧
  (∀ g doctype name docs,
     acyclic g →
     ∃ fuel a, get_linked_documents fuel g doctype name docs = Done a) ∧
  (tc (edge Fixtures.index_cut_cycle) ("Project", "S") ("Project", "S") ∧
   reentry_free Fixtures.index_cut_cycle "Project" "R" None ∧
   ∀ fuel, 4 ≤ fuel →
     get_linked_documents fuel Fixtures.index_cut_cycle "Project" "R" None =
       Done ([Node "Task" "P" 0 0; Node "Task" "Q" 0 1; Node "Project" "S" 0 1], 2)) ∧
  (∀ dt_a a dt_b b,
     dt_a ∈ ["Project"; "Timesheet"; "Task"] →
     dt_b ∈ ["Project"; "Timesheet"; "Task"] →
     (dt_a, a) ≠ (dt_b, b) →
     ∀ fuel,
       get_linked_documents fuel (two_cycle dt_a a dt_b b) dt_a a None
         = Halt OutOfFuel).
Proof.
  split; [|split; [|split]].
  - apply reentry_free_terminates.
  - intros g doctype name docs. apply acyclic_terminates.
  - split; [|split].
    + eapply tc_l; [|eapply tc_l; [|apply tc_once]].
      * exists [Link "Q" 0], (Link "Q" 0).
        instantiate (1 := ("Task", "Q")). repeat split; by left.
      * exists [Link "P" 0], (Link "P" 0).
        instantiate (1 := ("Project", "P")). repeat split; by left.
      * exists [Link "S" 0], (Link "S" 0). repeat split; by left.
    + by apply (reentry_free_by_run 4 _ _ _ _
        ([Node "Task" "P" 0 0; Node "Task" "Q" 0 1; Node "Project" "S" 0 1], 2)).
    + intros fuel Hfuel. by apply (get_linked_documents_more_fuel 4 fuel).
  - intros dt_a a dt_b b Ha%allow_listed Hb%allow_listed Hne fuel.
    by destruct (two_cycle_diverges dt_a a dt_b b Ha Hb Hne fuel None eq_refl).
Qed.

Lemma get_linked_documents_termination_witness :
  (∃ fuel a,
     get_linked_documents fuel Fixtures.index_cut_cycle "Project" "R" None = Done a) ∧
  (∃ fuel a,
     get_linked_documents fuel Fixtures.index_p1 "Project" "P1" None = Done a) ∧
  (∀ fuel,
     get_linked_documents fuel (two_cycle "Project" "A" "Task" "B") "Project" "A" None
       = Halt OutOfFuel).
Proof.
  destruct get_linked_documents_termination
    as (Hfree & Hacyclic & (_ & Hcut & _) & Hcycle).
  split; [|split].
  - apply Hfree, Hcut.
  - apply Hacyclic, index_p1_acyclic.
  - apply Hcycle; [by left|by do 2 right; left|done].
Defined.

End LinkedFacts.

(* ===================================================================== *)
(** * Further facts about the license hooks                               *)
(* ===================================================================== *)

Module LicenseExtra.
Import Host License.

(** ** validate_entity_license and its caller *)

Lemma get_default_license_outcomes (st : store) (party_type party_name : string) :
  (∃ v, get_default_license st party_type party_name = Ok v) ∨
  get_default_license st party_type party_name
    = Raise (DoesNotExistError party_type party_name).
Proof.
  unfold get_default_license.
  destruct (parties st !! (party_type, party_name)) as [doc|]; [left|by right].
  destruct (licenses doc); [by eexists|].
  destruct (List.find _ _); by eexists.
Qed.

Lemma validate_entity_license_outcomes (today : date) (st : store)
    (party_type party_name : string) :
  (∃ v msgs, validate_entity_license today st party_type party_name = Ok (v, msgs) ∧
             length msgs ≤ 1) ∨
  validate_entity_license today st party_type party_name
    = Raise (DoesNotExistError party_type party_name) ∨
  validate_entity_license today st party_type party_name = Raise TypeError.
Proof.
  unfold validate_entity_license.
  destruct (get_default_license_outcomes st party_type party_name) as [[v ->]| ->];
    [|by right; left].
  destruct (truthy v); simpl; [|left; eexists _, _; split; [done|simpl; lia]].
  destruct v as [|record_name]; [left; eexists _, _; split; [done|simpl; lia]|].
  destruct (compliance st !! record_name) as [ci|]; [|by right; right].
  left. destruct (ci_license_expiry_date ci) as [d|].
  - destruct (d <? today)%Z; eexists _, _; (split; [done|simpl; lia]).
  - eexists _, _. split; [done|simpl; lia].
Qed.

Lemma printed_outcomes (today : date) (st : store) (party_type party_name : string) :
  (parties st !! (party_type, party_name) = None →
     Transaction.printed (validate_entity_license today st party_type party_name)
       = Raise (DoesNotExistError party_type party_name)) ∧
  (∀ license_record,
     get_default_license st party_type party_name = Ok (PStr license_record) →
     license_record ≠ "" →
     compliance st !! license_record = None →
     Transaction.printed (validate_entity_license today st party_type party_name)
       = Raise TypeError) ∧
  (is_Some (parties st !! (party_type, party_name)) →
   (∀ license_record,
      get_default_license st party_type party_name = Ok (PStr license_record) →
      license_record ≠ "" → is_Some (compliance st !! license_record)) →
   ∃ msgs,
     Transaction.printed (validate_entity_license today st party_type party_name)
       = Ok msgs ∧ length msgs ≤ 1).
Proof.
  split; [|split].
  - intros Hmissing. unfold validate_entity_license, get_default_license.
    by rewrite Hmissing.
  - intros license_record Hget Hne Hci. unfold validate_entity_license.
    rewrite Hget.
    assert (truthy (PStr license_record) = true) as ->.
    { simpl. by destruct (String.eqb_spec license_record ""). }
    simpl. by rewrite Hci.
  - intros [doc Hdoc] Hlinked.
    destruct (validate_entity_license_outcomes today st party_type party_name)
      as [(v & msgs & -> & Hlen)|[Hrun|Hrun]].
    + by exists msgs.
    + exfalso. unfold validate_entity_license in Hrun.
      destruct (get_default_license st party_type party_name) as [v|e] eqn:Hget.
      * destruct (truthy v); simpl in Hrun; [|done].
        destruct v as [|record_name]; [done|].
        destruct (compliance st !! record_name) as [ci|]; [|done].
        destruct (ci_license_expiry_date ci) as [d|]; [|done].
        by destruct (d <? today)%Z.
      * unfold get_default_license in Hget. rewrite Hdoc in Hget.
        destruct (licenses doc); [done|]. by destruct (List.find _ _).
    + exfalso. unfold validate_entity_license in Hrun.
      destruct (get_default_license st party_type party_name) as [v|e] eqn:Hget.
      * destruct (truthy v) eqn:Hv; simpl in Hrun; [|done].
        destruct v as [|record_name]; [done|].
        destruct (Hlinked record_name eq_refl) as [ci Hci].
        { intros ->. by simpl in Hv. }
        rewrite Hci in Hrun.
        destruct (ci_license_expiry_date ci) as [d|]; [|done].
        by destruct (d <? today)%Z.
      * unfold get_default_license in Hget. rewrite Hdoc in Hget.
        destruct (licenses doc); [done|]. by destruct (List.find _ _).
Qed.

Lemma validate_license_expiry_party (today : date) (st : store)
    (doc : Transaction.document) (party_type party_name : string) :
  (Transaction.doctype doc ∈ ["Sales Order"; "Sales Invoice"; "Delivery Note"] ∧
   party_type = "Customer" ∧ party_name = Transaction.customer doc) ∨
  (Transaction.doctype doc ∈ ["Supplier Quotation"; "Purchase Order";
                              "Purchase Invoice"; "Purchase Receipt"] ∧
   party_type = "Supplier" ∧ party_name = Transaction.supplier doc) ∨
  (Transaction.doctype doc = "Quotation" ∧
   Transaction.quotation_to doc = "Customer" ∧
   party_type = "Customer" ∧ party_name = Transaction.party_name doc) →
  Transaction.validate_license_expiry today st doc =
    Transaction.printed (validate_entity_license today st party_type party_name).
Proof.
  unfold Transaction.validate_license_expiry.
  intros [(Hdt & -> & ->)|[(Hdt & -> & ->)|(Hdt & Hto & -> & ->)]].
  - by rewrite (bool_decide_eq_true_2 _ Hdt).
  - rewrite (bool_decide_eq_true_2 _ Hdt).
    rewrite bool_decide_eq_false_2; [done|].
    intros Hsales. set_unfold. destruct_or!; congruence.
  - rewrite Hdt, Hto. reflexivity.
Qed.

(** X1 -- [validate_license_expiry] checks the customer of a sales
    document, the supplier of a purchase document and the party of a
    Quotation addressed to a Customer.  The save is blocked, with
    [DoesNotExistError], when that party does not exist, and, with
    [TypeError], when its default license names no Compliance Info
    record; when the party exists and its default license, if any, has
    its record, the hook returns having printed at most one message. *)
Theorem validate_license_expiry_outcomes (today : date) (st : store)
    (doc : Transaction.document) (party_type party_name : string) :
  (Transaction.doctype doc ∈ ["Sales Order"; "Sales Invoice"; "Delivery Note"] ∧
   party_type = "Customer" ∧ party_name = Transaction.customer doc) ∨
  (Transaction.doctype doc ∈ ["Supplier Quotation"; "Purchase Order";
                              "Purchase Invoice"; "Purchase Receipt"] ∧
   party_type = "Supplier" ∧ party_name = Transaction.supplier doc) ∨
  (Transaction.doctype doc = "Quotation" ∧
   Transaction.quotation_to doc = "Customer" ∧
   party_type = "Customer" ∧ party_name = Transaction.party_name doc) →
  (parties st !! (party_type, party_name) = None →
     Transaction.validate_license_expiry today st doc
       = Raise (DoesNotExistError party_type party_name)) ∧
  (∀ license_record,
     get_default_license st party_type party_name = Ok (PStr license_record) →
     license_record ≠ "" →
     compliance st !! license_record = None →
     Transaction.validate_license_expiry today st doc = Raise TypeError) ∧
  (is_Some (parties st !! (party_type, party_name)) →
   (∀ license_record,
      get_default_license st party_type party_name = Ok (PStr license_record) →
      license_record ≠ "" → is_Some (compliance st !! license_record)) →
   ∃ msgs, Transaction.validate_license_expiry today st doc = Ok msgs ∧
           length msgs ≤ 1).
Proof.
  intros Hparty.
  rewrite (validate_license_expiry_party today st doc party_type party_name Hparty).
  apply printed_outcomes.
Qed.

(** X2 -- on a document that is neither a sales nor a purchase document,
    nor a Quotation addressed to a Customer, [validate_license_expiry]
    prints nothing and returns, whatever the store holds: no party is
    looked up. *)
Theorem validate_license_expiry_ignored (today : date) (st : store)
    (doc : Transaction.document) :
  Transaction.doctype doc ∉ ["Sales Order"; "Sales Invoice"; "Delivery Note"] →
  Transaction.doctype doc ∉ ["Supplier Quotation"; "Purchase Order";
                             "Purchase Invoice"; "Purchase Receipt"] →
  Transaction.doctype doc ≠ "Quotation" ∨ Transaction.quotation_to doc ≠ "Customer" →
  Transaction.validate_license_expiry today st doc = Ok [].
Proof.
  intros Hsales Hpurchase Hquotation. unfold Transaction.validate_license_expiry.
  rewrite (bool_decide_eq_false_2 _ Hsales), (bool_decide_eq_false_2 _ Hpurchase).
  destruct Hquotation as [Hne|Hne]; rewrite (bool_decide_eq_false_2 _ Hne);
    [done|by rewrite andb_false_r].
Qed.

Lemma validate_license_expiry_ignored_witness :
  Transaction.validate_license_expiry 200%Z (Store ∅ ∅)
    (Transaction.Document "Quotation" "" "" "Lead" "LEAD-0001") = Ok [].
Proof.
  apply validate_license_expiry_ignored.
  - apply (bool_decide_unpack _). reflexivity.
  - apply (bool_decide_unpack _). reflexivity.
  - right. discriminate.
Defined.

Lemma validate_license_expiry_outcomes_witness :
  Transaction.validate_license_expiry 200%Z Fixtures.license_store
    (Transaction.Document "Sales Order" "" "" "" "")
    = Raise (DoesNotExistError "Customer" "") ∧
  Transaction.validate_license_expiry 200%Z Fixtures.dangling_store
    (Transaction.Document "Quotation" "" "" "Customer" "C3")
    = Raise TypeError ∧
  ∃ msgs,
    Transaction.validate_license_expiry 200%Z Fixtures.license_store
      (Transaction.Document "Purchase Order" "" "S1" "" "") = Ok msgs ∧
    length msgs ≤ 1.
Proof.
  split; [|split].
  - destruct (validate_license_expiry_outcomes 200%Z Fixtures.license_store
                (Transaction.Document "Sales Order" "" "" "" "") "Customer" "")
      as (Hmissing & _).
    + left. split; [|done]. apply (bool_decide_unpack _). reflexivity.
    + apply Hmissing. reflexivity.
  - destruct (validate_license_expiry_outcomes 200%Z Fixtures.dangling_store
                (Transaction.Document "Quotation" "" "" "Customer" "C3")
                "Customer" "C3") as (_ & Hdangling & _).
    + right; right. done.
    + apply (Hdangling "L7"); [reflexivity|discriminate|reflexivity].
  - destruct (validate_license_expiry_outcomes 200%Z Fixtures.license_store
                (Transaction.Document "Purchase Order" "" "S1" "" "")
                "Supplier" "S1") as (_ & _ & Hfine).
    + right; left. split; [|done]. apply (bool_decide_unpack _). reflexivity.
    + apply Hfine; [by eexists|].
      intros license_record [= <-] _. by eexists.
Defined.

(** ** validate_default_license *)

Lemma validate_default_license_cases (doc doc' : party) :
  validate_default_license doc = Ok doc' →
  NoDup (map license (licenses doc)) ∧
  ((∃ row, licenses doc = [row] ∧ doc' = set_licenses doc [set_default row]) ∨
   (licenses doc = [] ∧ doc' = doc) ∨
   (2 ≤ length (licenses doc) ∧ length (defaults doc) = 1 ∧ doc' = doc)).
Proof.
  intros Hrun.
  destruct (decide (NoDup (map license (licenses doc)))) as [Hnd|Hdup];
    [|by rewrite (LicenseFacts.validate_default_license_duplicates doc Hdup) in Hrun].
  split; [done|].
  rewrite (LicenseFacts.validate_default_license_distinct doc Hnd) in Hrun.
  destruct (licenses doc) as [|row [|row' rows]] eqn:Hrows.
  - right; left. split; [done|]. simpl in Hrun. congruence.
  - left. exists row. split; [done|]. simpl in Hrun. congruence.
  - right; right. split; [simpl; lia|].
    change (length (row :: row' :: rows) =? 1) with false in Hrun.
    change (1 <? length (row :: row' :: rows)) with true in Hrun.
    simpl in Hrun.
    destruct (defaults doc) as [|d [|d' ds]]; [done| |done].
    split; [done|]. simpl in Hrun. congruence.
Qed.

(** X3 -- when [validate_default_license] accepts a document, the license
    ids are pairwise distinct and a non-empty table has exactly one row
    flagged default; the document name, the number and order of rows, and
    each row's index, license id and expiry date are as they were. *)
Theorem validate_default_license_accepts (doc doc' : party) :
  validate_default_license doc = Ok doc' →
  NoDup (map license (licenses doc')) ∧
  (licenses doc' = [] ∨ length (defaults doc') = 1) ∧
  name doc' = name doc ∧
  map license (licenses doc') = map license (licenses doc) ∧
  map idx (licenses doc') = map idx (licenses doc) ∧
  map license_expiry_date (licenses doc') = map license_expiry_date (licenses doc).
Proof.
  intros (Hnd & [(row & Hrow & ->)|[(Hnone & ->)|(Hlen & Hone & ->)]])
         %validate_default_license_cases.
  - rewrite Hrow in *. simpl. repeat split; [done|by right|done..].
  - repeat split; [done|by left|done..].
  - repeat split; [done|by right|done..].
Qed.

Lemma validate_default_license_accepts_witness :
  length (defaults Fixtures.supplier_s1) = 1 ∧
  NoDup (map license (licenses Fixtures.supplier_s1)).
Proof.
  destruct (validate_default_license_accepts Fixtures.supplier_s1 Fixtures.supplier_s1
              eq_refl) as (Hnd & [Hnone|Hone] & _).
  - discriminate Hnone.
  - split; [exact Hone|exact Hnd].
Defined.

(** X14 -- [validate_default_license] accepts a document exactly when its
    license ids are pairwise distinct and it has at most one row or
    exactly one row flagged default. *)
Theorem validate_default_license_accepts_iff (doc : party) :
  (∃ doc', validate_default_license doc = Ok doc') ↔
  NoDup (map license (licenses doc)) ∧
  (length (licenses doc) ≤ 1 ∨ length (defaults doc) = 1).
Proof.
  split.
  - intros (doc' & (Hnd & [(row & Hrow & _)|[(Hnone & _)|(_ & Hone & _)]])
                   %validate_default_license_cases).
    + split; [done|]. left. by rewrite Hrow.
    + split; [done|]. left. rewrite Hnone. simpl. lia.
    + split; [done|]. by right.
  - intros [Hnd Hshape].
    rewrite (LicenseFacts.validate_default_license_distinct doc Hnd).
    destruct (Nat.eqb_spec (length (licenses doc)) 1) as [|Hne1]; [by eexists|].
    destruct (Nat.ltb_spec 1 (length (licenses doc))) as [Hmany|]; [|by eexists].
    destruct Hshape as [|Hone]; [lia|].
    destruct (defaults doc) as [|d [|d' ds]]; [done| |done]. by eexists.
Qed.

Lemma validate_default_license_accepts_iff_witness :
  ∃ doc', validate_default_license Fixtures.supplier_s1 = Ok doc'.
Proof.
  apply validate_default_license_accepts_iff. split.
  - apply (bool_decide_unpack _). reflexivity.
  - right. reflexivity.
Defined.

(** X4 -- [validate_default_license] is idempotent: a document it accepts
    is accepted again, unchanged. *)
Theorem validate_default_license_idempotent (doc doc' : party) :
  validate_default_license doc = Ok doc' →
  validate_default_license doc' = Ok doc'.
Proof.
  intros Hrun.
  destruct (validate_default_license_cases doc doc' Hrun)
    as (Hnd & [(row & Hrow & ->)|[(Hnone & ->)|(Hlen & Hone & ->)]]); [|done..].
  rewrite LicenseFacts.validate_default_license_distinct; [done|].
  simpl. apply NoDup_singleton.
Qed.

Lemma validate_default_license_idempotent_witness :
  validate_default_license
    (Party "C2" [set_default (LicenseRow 1 "L9" 0 None)])
  = Ok (Party "C2" [set_default (LicenseRow 1 "L9" 0 None)]).
Proof.
  apply (validate_default_license_idempotent (Party "C2" [LicenseRow 1 "L9" 0 None])).
  reflexivity.
Defined.

(** ** get_default_license *)

Lemma find_head_filter {A} (f : A → bool) (l : list A) :
  List.find f l = head (List.filter f l).
Proof.
  induction l as [|a l IH]; [done|]. simpl. by destruct (f a).
Qed.

(** X5 -- what [get_default_license] returns comes from the party's own
    table: it returns [None] exactly when the table is empty, and a
    non-empty id it returns is the license id of a row flagged default. *)
Theorem get_default_license_sound (st : store) (party_type party_name : string)
    (doc : party) (v : pyval) :
  parties st !! (party_type, party_name) = Some doc →
  get_default_license st party_type party_name = Ok v →
  (v = PNone ↔ licenses doc = []) ∧
  (∀ id, v = PStr id → id ≠ "" →
     ∃ row, row ∈ licenses doc ∧ license row = id ∧
            truthy_int (is_default row) = true).
Proof.
  intros Hdoc. unfold get_default_license. rewrite Hdoc.
  destruct (licenses doc) as [|r rs] eqn:Hrows.
  - intros [= <-]. split; [done|]. by intros id.
  - destruct (List.find _ (r :: rs)) as [row|] eqn:Hfind; intros [= <-].
    + split; [by split|]. intros id [= <-] _.
      apply find_some in Hfind as [Hin Hdefault]. exists row.
      split; [by apply list_elem_of_In|done].
    + split; [by split|]. by intros id [= <-].
Qed.

Lemma get_default_license_sound_witness :
  ∃ row, row ∈ licenses Fixtures.supplier_s1 ∧ license row = "L5" ∧
         truthy_int (is_default row) = true.
Proof.
  destruct (get_default_license_sound Fixtures.license_store "Supplier" "S1"
              Fixtures.supplier_s1 (PStr "L5") eq_refl eq_refl) as [_ Hrow].
  by apply Hrow.
Defined.

(** X6 -- after [validate_default_license] has accepted a party with at
    least one license, [get_default_license] on the stored document
    returns the license id of its one default row. *)
Theorem get_default_license_after_validation (st : store)
    (party_type party_name : string) (doc doc' : party) :
  validate_default_license doc = Ok doc' →
  licenses doc ≠ [] →
  parties st !! (party_type, party_name) = Some doc' →
  ∃ row,
    defaults doc' = [row] ∧
    license row ∈ map license (licenses doc) ∧
    get_default_license st party_type party_name = Ok (PStr (license row)).
Proof.
  intros Hrun Hne Hstored.
  destruct (validate_default_license_accepts doc doc' Hrun)
    as (_ & Hone & _ & Hids & _).
  destruct Hone as [Hnone|Hone].
  { rewrite Hnone in Hids. by destruct (licenses doc). }
  unfold defaults in *.
  destruct (List.filter _ (licenses doc')) as [|row [|row' rows]] eqn:Hdefaults;
    [done| |done].
  exists row. split; [done|]. split.
  - rewrite <- Hids. apply list_elem_of_fmap. exists row. split; [done|].
    assert (Hin : In row (List.filter (λ l, truthy_int (is_default l)) (licenses doc')))
      by (rewrite Hdefaults; by left).
    apply filter_In in Hin as [Hin _]. by apply list_elem_of_In.
  - unfold get_default_license. rewrite Hstored.
    destruct (licenses doc') as [|r rs] eqn:Hrows; [done|].
    by rewrite find_head_filter, Hdefaults.
Qed.

Lemma get_default_license_after_validation_witness :
  get_default_license Fixtures.license_store "Supplier" "S1" = Ok (PStr "L5").
Proof.
  destruct (get_default_license_after_validation Fixtures.license_store
              "Supplier" "S1" Fixtures.supplier_s1 Fixtures.supplier_s1
              eq_refl ltac:(done) eq_refl) as (row & Hrow & _ & Hget).
  injection Hrow as <-. exact Hget.
Defined.

End LicenseExtra.

(* ===================================================================== *)
(** * Further facts about the billable cascade                            *)
(* ===================================================================== *)

Module BillableExtra.
Import Host Billable BillableScope BillableFacts.

(** ** Tables updated in a scope *)

Lemma updated_update_where {R} (test : R → bool) (scope : R → Prop) (f : R → R)
    (t : gmap string R) :
  (∀ r, test r = true ↔ scope r) → updated scope f t (update_where test f t).
Proof.
  intros Htest k. unfold update_where. rewrite lookup_fmap.
  destruct (t !! k) as [r|]; [|done]. simpl. eexists. split; [done|].
  destruct (test r) eqn:Hr.
  - left. split; [by apply Htest|done].
  - right. split; [|done]. intros Hscope%Htest. congruence.
Qed.

Lemma updated_same {R} (scope : R → Prop) (f : R → R) (t : gmap string R) :
  (∀ r, ¬ scope r) → updated scope f t t.
Proof.
  intros Hnone k. destruct (t !! k) as [r|]; [|done].
  exists r. split; [done|]. right. split; [apply Hnone|done].
Qed.

Lemma updated_update_names {R} (scope : R → Prop) (f : R → R)
    (names : list string) (t : gmap string R) :
  (∀ r, f (f r) = f r) →
  (∀ k, k ∈ names ↔ ∃ r, t !! k = Some r ∧ scope r) →
  updated scope f t (update_names f names t).
Proof.
  intros Hidem Hnames k. rewrite lookup_update_names by done.
  destruct (t !! k) as [r|] eqn:Hk.
  - destruct (decide (k ∈ names)) as [Hin|Hnin]; simpl; eexists; (split; [done|]).
    + left. split; [|done]. apply Hnames in Hin as (r' & Hr' & Hscope). congruence.
    + right. split; [|done]. intros Hscope. apply Hnin, Hnames. by exists r.
  - by destruct (decide (k ∈ names)).
Qed.

Lemma updated_scope_ext {R} (scope scope' : R → Prop) (f : R → R)
    (t t' : gmap string R) :
  (∀ r, scope r ↔ scope' r) → updated scope f t t' → updated scope' f t t'.
Proof.
  intros Hext Hup k. specialize (Hup k). destruct (t !! k) as [r|]; [|done].
  destruct Hup as (r' & Hr' & Hcases). exists r'. split; [done|].
  rewrite <- (Hext r). exact Hcases.
Qed.

(** Two updates in a row, the second over the first, leave what the
    second alone leaves. *)
Lemma updated_overwrite {R} (scope scope1 : R → Prop) (f g : R → R)
    (t t1 t2 t2' : gmap string R) :
  updated scope f t t1 → updated scope1 g t1 t2 → updated scope g t t2' →
  (∀ r, scope1 r ↔ scope r) → (∀ r, scope (f r) ↔ scope r) →
  (∀ r, g (f r) = g r) →
  t2 = t2'.
Proof.
  intros H1 H2 H2' Hsame Hkeep Hover. apply map_eq. intros k.
  specialize (H1 k). specialize (H2 k). specialize (H2' k).
  destruct (t !! k) as [r|].
  - destruct H1 as (r1 & Hr1 & Hc1). rewrite Hr1 in H2.
    destruct H2 as (r2 & -> & Hc2). destruct H2' as (r2' & -> & Hc2').
    f_equal.
    destruct Hc1 as [[Hin ->]|[Hout ->]].
    + destruct Hc2 as [[_ ->]|[Hout1 _]].
      * destruct Hc2' as [[_ ->]|[Hout _]]; [by rewrite Hover|done].
      * destruct Hout1. by apply Hsame, Hkeep.
    + destruct Hc2 as [[Hin1 _]|[_ ->]].
      * destruct Hout. by apply Hsame.
      * by destruct Hc2' as [[Hin _]|[_ ->]].
  - rewrite H1 in H2. by rewrite H2, H2'.
Qed.

Lemma selected_updated {R} (scope : R → Prop) (f : R → R) (test : R → Prop)
    (t t' : gmap string R) (k : string) :
  updated scope f t t' → (∀ r, test (f r) ↔ test r) →
  (∃ r', t' !! k = Some r' ∧ test r') ↔ (∃ r, t !! k = Some r ∧ test r).
Proof.
  intros Hup Htest. specialize (Hup k). destruct (t !! k) as [r|].
  - destruct Hup as (r' & Hr' & [[_ ->]|[_ ->]]); rewrite Hr'; split.
    + intros (? & [= <-] & Ht). exists r. split; [done|by apply Htest].
    + intros (? & [= <-] & ?). exists (f r). split; [done|by apply Htest].
    + intros (? & [= <-] & ?). by exists r.
    + intros (? & [= <-] & ?). by exists r.
  - rewrite Hup. split; by intros (? & ? & ?).
Qed.

Lemma updated_lookup {R} (scope : R → Prop) (f : R → R) (t t' : gmap string R) :
  updated scope f t t' →
  (∀ k, is_Some (t' !! k) ↔ is_Some (t !! k)) ∧
  (∀ k r, t !! k = Some r → scope r → t' !! k = Some (f r)) ∧
  (∀ k r, t !! k = Some r → ¬ scope r → t' !! k = Some r).
Proof.
  intros Hup. split; [|split].
  - intros k. specialize (Hup k). destruct (t !! k) as [r|].
    + destruct Hup as (r' & -> & _). by split.
    + rewrite Hup. by split.
  - intros k r Hr Hin. specialize (Hup k). rewrite Hr in Hup.
    by destruct Hup as (r' & -> & [[_ ->]|[Hout _]]).
  - intros k r Hr Hout. specialize (Hup k). rewrite Hr in Hup.
    by destruct Hup as (r' & -> & [[Hin _]|[_ ->]]).
Qed.

(** ** update_linked_tasks and update_linked_projects *)

(** X7 -- [update_linked_tasks(project, billable)] returns the Tasks whose
    project field is [project], each once whatever the order; it sets the
    billable flag of exactly those Tasks and saves each of them; it leaves
    the other Tasks, the Projects and the Timesheet Detail rows as they
    were, whether or not a Project of that name exists. *)
Theorem update_linked_tasks_effect
    (row_order : list call → list string → list string)
    (p : string) (b : Z) (s : db) :
  complete row_order →
  ∃ names s',
    update_linked_tasks row_order p b s = Ok (names, s') ∧
    (∀ t, t ∈ names ↔ selected task_project p (tasks s) t) ∧
    updated (λ row, task_project row = p) (task_set_billable b) (tasks s) (tasks s') ∧
    projects s' = projects s ∧
    timesheet_details s' = timesheet_details s ∧
    (∀ t, t ∈ names → Save "Task" t ∈ calls s').
Proof.
  intros Hcomplete.
  destruct (update_linked_tasks_runs row_order Hcomplete p b s)
    as (names & s' & Hrun & Hnames & Hp & Htd & Ht & _ & Hsaved).
  exists names, s'. repeat split; [done|apply Hnames..| |done|done|done].
  rewrite Ht. apply updated_update_where. intros r. apply bool_decide_eq_true.
Qed.

Lemma update_linked_tasks_effect_witness :
  ∃ names s',
    update_linked_tasks (λ _ names, names) "P2" 1 Fixtures.billable_db
      = Ok (names, s') ∧
    ("T3" ∈ names ∧ "T4" ∈ names ∧ "T1" ∉ names) ∧
    projects s' = projects Fixtures.billable_db.
Proof.
  destruct (update_linked_tasks_effect (λ _ names, names) "P2" 1 Fixtures.billable_db
              (λ _ names, reflexivity names))
    as (names & s' & Hrun & Hnames & _ & Hp & _).
  exists names, s'. split; [exact Hrun|]. split; [|exact Hp]. split; [|split].
  - apply Hnames. exists (Task "P2" 0). split; reflexivity.
  - apply Hnames. exists (Task "P2" 0). split; reflexivity.
  - intros (row & Hrow & Hproject)%Hnames.
    assert (Hrow' : row = Task "P1" 0)
      by (apply (inj Some); rewrite <- Hrow; reflexivity).
    subst row. discriminate Hproject.
Defined.

(** X8 -- [update_linked_projects(field, value, billable)], for the field
    of a Project Type or a Project Template, returns the Projects whose
    field is [value]; it sets the billable flag of exactly those Projects
    and of exactly the Tasks that name one of them, saving each; it never
    writes a Timesheet Detail row. *)
Theorem update_linked_projects_effect
    (row_order : list call → list string → list string)
    (field : string) (col : project → string) (v : string) (b : Z) (s : db) :
  complete row_order →
  (field = "project_type" ∧ col = project_type) ∨
  (field = "project_template" ∧ col = project_template) →
  ∃ names s',
    update_linked_projects row_order field v b s = Ok (names, s') ∧
    (∀ p, p ∈ names ↔ selected col v (projects s) p) ∧
    updated (λ row, col row = v) (project_set_billable b) (projects s) (projects s') ∧
    updated (λ row, selected col v (projects s) (task_project row))
            (task_set_billable b) (tasks s) (tasks s') ∧
    timesheet_details s' = timesheet_details s ∧
    (∀ p, p ∈ names → Save "Project" p ∈ calls s') ∧
    (∀ t row, tasks s !! t = Some row →
              selected col v (projects s) (task_project row) →
              Save "Task" t ∈ calls s').
Proof.
  intros Hcomplete Hfield.
  assert (Hcol : project_column field = Some col)
    by (by destruct Hfield as [[-> ->]|[-> ->]]).
  destruct (update_linked_projects_runs row_order Hcomplete field col v b s Hcol)
    as (names & s' & Hrun & Hnames & Hp & Ht & Htd & _ & Hsp & Hst).
  exists names, s'. split; [done|]. split; [done|]. split; [|split; [|split]].
  - rewrite Hp. apply updated_update_where. intros r. apply bool_decide_eq_true.
  - rewrite Ht. apply updated_update_where. intros r.
    rewrite bool_decide_eq_true. apply Hnames.
  - done.
  - split; [done|]. intros t row Hrow Hsel. apply (Hst t row Hrow), Hnames, Hsel.
Qed.

Lemma update_linked_projects_effect_witness :
  ∃ names s',
    update_linked_projects (λ _ names, names) "project_type" "External" 1
      Fixtures.billable_db = Ok (names, s') ∧
    "P3" ∈ names ∧
    timesheet_details s' = timesheet_details Fixtures.billable_db.
Proof.
  destruct (update_linked_projects_effect (λ _ names, names) "project_type"
              project_type "External" 1 Fixtures.billable_db
              (λ _ names, reflexivity names) (or_introl (conj eq_refl eq_refl)))
    as (names & s' & Hrun & Hnames & _ & _ & Htd & _).
  exists names, s'. split; [exact Hrun|]. split; [|exact Htd].
  apply Hnames. exists (Project "External" "" 0). split; reflexivity.
Defined.

(** ** update_timesheet_logs on every reference *)

Lemma update_timesheet_logs_unrecognised_run
    (row_order : list call → list string → list string)
    (ref_dt ref_dn : string) (b : Z) (s : db) :
  ref_dt ∉ ["Project"; "Task"] →
  ref_dt ∉ ["Project Type"; "Project Template"] →
  update_timesheet_logs row_order ref_dt ref_dn b s = Ok (tt, s).
Proof.
  intros H1 H2. unfold update_timesheet_logs.
  by rewrite (bool_decide_eq_false_2 _ H1), (bool_decide_eq_false_2 _ H2).
Qed.

Lemma project_scope_type (ref_dn : string) (r : project) :
  project_in_scope "Project Type" ref_dn r ↔ project_type r = ref_dn.
Proof. unfold project_in_scope. split; [by intros [[_ ?]|[? _]]|by left]. Qed.

Lemma project_scope_template (ref_dn : string) (r : project) :
  project_in_scope "Project Template" ref_dn r ↔ project_template r = ref_dn.
Proof. unfold project_in_scope. split; [by intros [[? _]|[_ ?]]|by right]. Qed.

Lemma project_scope_none (ref_dt ref_dn : string) (r : project) :
  ref_dt ∉ ["Project Type"; "Project Template"] →
  ¬ project_in_scope ref_dt ref_dn r.
Proof.
  intros Hout [[Heq _]|[Heq _]]; apply Hout; rewrite Heq; [left|right; left].
Qed.

Lemma td_scope_task (ref_dn : string) (P : gmap string project)
    (r : timesheet_detail) :
  td_in_scope "Task" ref_dn P r ↔ td_task r = ref_dn.
Proof.
  unfold td_in_scope. split; [|by left].
  intros [[_ ?]|[[? _]|(p & _ & Hin)]]; [done..|].
  by destruct Hin as [[? _]|[? _]].
Qed.

Lemma td_scope_project (ref_dn : string) (P : gmap string project)
    (r : timesheet_detail) :
  td_in_scope "Project" ref_dn P r ↔ td_project r = ref_dn.
Proof.
  unfold td_in_scope. split; [|by right; left].
  intros [[? _]|[[_ ?]|(p & _ & Hin)]]; [done..|].
  by destruct Hin as [[? _]|[? _]].
Qed.

Lemma td_scope_cascade (ref_dt ref_dn : string) (P : gmap string project)
    (r : timesheet_detail) :
  ref_dt ∉ ["Project"; "Task"] →
  td_in_scope ref_dt ref_dn P r ↔
  ∃ p, P !! td_project r = Some p ∧ project_in_scope ref_dt ref_dn p.
Proof.
  intros Hout. unfold td_in_scope. split; [|by right; right].
  intros [[Heq _]|[[Heq _]|Hin]]; [| |done];
    destruct Hout; rewrite Heq; [right; left|left].
Qed.

(** The tables after [update_timesheet_logs], for every reference. *)
Lemma update_timesheet_logs_tables
    (row_order : list call → list string → list string)
    (ref_dt ref_dn : string) (b : Z) (s : db) :
  complete row_order →
  ∃ s',
    update_timesheet_logs row_order ref_dt ref_dn b s = Ok (tt, s') ∧
    updated (project_in_scope ref_dt ref_dn) (project_set_billable b)
            (projects s) (projects s') ∧
    updated (task_in_scope ref_dt ref_dn (projects s)) (task_set_billable b)
            (tasks s) (tasks s') ∧
    updated (td_in_scope ref_dt ref_dn (projects s)) (td_set_billable b)
            (timesheet_details s) (timesheet_details s').
Proof.
  intros Hcomplete.
  destruct (decide (ref_dt ∈ ["Project"; "Task"])) as [Hdirect|Hdirect].
  - assert (Href : ∃ col,
      ((ref_dt = "Task" ∧ col = td_task) ∨ (ref_dt = "Project" ∧ col = td_project)) ∧
      ∀ r, td_in_scope ref_dt ref_dn (projects s) r ↔ col r = ref_dn).
    { rewrite !elem_of_cons in Hdirect.
      destruct Hdirect as [Heq|[Heq|[]%elem_of_nil]]; rewrite Heq.
      - exists td_project. split; [by right|]. intros r. apply td_scope_project.
      - exists td_task. split; [by left|]. intros r. apply td_scope_task. }
    destruct Href as (col & Href & Hscope).
    assert (Hnone : ∀ r, ¬ project_in_scope ref_dt ref_dn r).
    { intros r. apply project_scope_none.
      destruct Href as [[Heq _]|[Heq _]]; rewrite Heq;
        by apply (bool_decide_unpack _). }
    destruct (update_timesheet_logs_direct_runs row_order Hcomplete
                ref_dt ref_dn b s col Href)
      as ([] & s' & Hrun & Hp & Ht & Htd & _).
    exists s'. split; [done|]. rewrite Hp, Ht, Htd. split; [|split].
    + by apply updated_same.
    + apply updated_same. intros r (p & _ & Hin). by apply (Hnone p).
    + apply updated_update_where. intros r.
      by rewrite bool_decide_eq_true, Hscope.
  - destruct (decide (ref_dt ∈ ["Project Type"; "Project Template"]))
      as [Hcascade|Hcascade].
    + assert (Href : ∃ col,
        ((ref_dt = "Project Type" ∧ col = project_type) ∨
         (ref_dt = "Project Template" ∧ col = project_template)) ∧
        ∀ r, project_in_scope ref_dt ref_dn r ↔ col r = ref_dn).
      { rewrite !elem_of_cons in Hcascade.
        destruct Hcascade as [Heq|[Heq|[]%elem_of_nil]]; rewrite Heq.
        - exists project_type. split; [by left|]. intros r. apply project_scope_type.
        - exists project_template. split; [by right|].
          intros r. apply project_scope_template. }
      destruct Href as (col & Href & Hscope).
      destruct (update_timesheet_logs_cascade_runs row_order Hcomplete
                  ref_dt ref_dn b s col Href)
        as ([] & s' & Hrun & Hp & names & Hnames & Ht & _ & _
            & logs & Hlogs & Htd & _).
      assert (Hsel : ∀ n, n ∈ names ↔
                ∃ p, projects s !! n = Some p ∧ project_in_scope ref_dt ref_dn p).
      { intros n. rewrite Hnames. unfold selected.
        split; intros (p & Hp' & Hin); exists p; (split; [done|]); by apply Hscope. }
      exists s'. split; [done|]. rewrite Hp, Ht, Htd. split; [|split].
      * apply updated_update_where. intros r.
        by rewrite bool_decide_eq_true, Hscope.
      * apply updated_update_where. intros r.
        rewrite bool_decide_eq_true. apply Hsel.
      * apply updated_update_names; [done|]. intros l. rewrite Hlogs.
        split; intros (row & Hrow & Hin); exists row; (split; [done|]).
        -- apply td_scope_cascade; [done|]. by apply Hsel.
        -- apply Hsel. by apply (td_scope_cascade ref_dt ref_dn).
    + exists s. split; [by apply update_timesheet_logs_unrecognised_run|].
      split; [|split]; apply updated_same.
      * intros r. by apply project_scope_none.
      * intros r (p & _ & Hin). by apply (project_scope_none ref_dt ref_dn p).
      * intros r (p & _ & Hin)%td_scope_cascade; [|done].
        by apply (project_scope_none ref_dt ref_dn p).
Qed.

(** X9 -- for every reference doctype and name, [update_timesheet_logs]
    returns normally; it adds and removes no row; the rows it leaves as
    they were are exactly those out of scope: Projects not selected by a
    Project Type or Template reference, Tasks of no selected Project, and
    Timesheet Detail rows not selected by the reference; the rows in scope
    get the new billable flag and keep their other fields. *)
Theorem update_timesheet_logs_effect
    (row_order : list call → list string → list string)
    (ref_dt ref_dn : string) (b : Z) (s : db) :
  complete row_order →
  ∃ s',
    update_timesheet_logs row_order ref_dt ref_dn b s = Ok (tt, s') ∧
    (∀ k, (is_Some (projects s' !! k) ↔ is_Some (projects s !! k)) ∧
          (is_Some (tasks s' !! k) ↔ is_Some (tasks s !! k)) ∧
          (is_Some (timesheet_details s' !! k) ↔
           is_Some (timesheet_details s !! k))) ∧
    (∀ k r, projects s !! k = Some r →
       ¬ project_in_scope ref_dt ref_dn r → projects s' !! k = Some r) ∧
    (∀ k r, tasks s !! k = Some r →
       ¬ task_in_scope ref_dt ref_dn (projects s) r → tasks s' !! k = Some r) ∧
    (∀ k r, timesheet_details s !! k = Some r →
       ¬ td_in_scope ref_dt ref_dn (projects s) r →
       timesheet_details s' !! k = Some r) ∧
    (∀ k r, projects s !! k = Some r →
       project_in_scope ref_dt ref_dn r →
       projects s' !! k = Some (project_set_billable b r)) ∧
    (∀ k r, tasks s !! k = Some r →
       task_in_scope ref_dt ref_dn (projects s) r →
       tasks s' !! k = Some (task_set_billable b r)) ∧
    (∀ k r, timesheet_details s !! k = Some r →
       td_in_scope ref_dt ref_dn (projects s) r →
       timesheet_details s' !! k = Some (td_set_billable b r)).
Proof.
  intros Hcomplete.
  destruct (update_timesheet_logs_tables row_order ref_dt ref_dn b s Hcomplete)
    as (s' & Hrun & Hp & Ht & Htd).
  apply updated_lookup in Hp as (Hp_keys & Hp_in & Hp_out).
  apply updated_lookup in Ht as (Ht_keys & Ht_in & Ht_out).
  apply updated_lookup in Htd as (Htd_keys & Htd_in & Htd_out).
  exists s'. split; [done|]. split; [by intros k|]. by repeat split.
Qed.

Lemma update_timesheet_logs_effect_witness :
  ∃ s',
    update_timesheet_logs (λ _ names, names) "Task" "T3" 1 Fixtures.billable_db
      = Ok (tt, s') ∧
    timesheet_details s' !! "D1" = Some (TimesheetDetail "P1" "T1" 0) ∧
    timesheet_details s' !! "D2" = Some (TimesheetDetail "P2" "T3" 1) ∧
    tasks s' !! "T3" = Some (Task "P2" 0).
Proof.
  destruct (update_timesheet_logs_effect (λ _ names, names) "Task" "T3" 1
              Fixtures.billable_db (λ _ names, reflexivity names))
    as (s' & Hrun & _ & _ & Ht_out & Htd_out & _ & _ & Htd_in).
  exists s'. split; [exact Hrun|]. split; [|split].
  - apply Htd_out; [reflexivity|]. by intros ?%td_scope_task.
  - apply (Htd_in "D2" (TimesheetDetail "P2" "T3" 0)); [reflexivity|].
    by apply td_scope_task.
  - apply Ht_out; [reflexivity|].
    intros (p & _ & Hin). revert Hin.
    apply project_scope_none, (bool_decide_unpack _). reflexivity.
Defined.

Lemma task_scope_updated (ref_dt ref_dn : string) (b : Z)
    (P P' : gmap string project) (r : task) :
  updated (project_in_scope ref_dt ref_dn) (project_set_billable b) P P' →
  task_in_scope ref_dt ref_dn P' r ↔ task_in_scope ref_dt ref_dn P r.
Proof.
  intros Hup. unfold task_in_scope.
  by apply (selected_updated _ _ (project_in_scope ref_dt ref_dn) _ _ _ Hup).
Qed.

Lemma td_scope_updated (ref_dt ref_dn : string) (b : Z)
    (P P' : gmap string project) (r : timesheet_detail) :
  updated (project_in_scope ref_dt ref_dn) (project_set_billable b) P P' →
  td_in_scope ref_dt ref_dn P' r ↔ td_in_scope ref_dt ref_dn P r.
Proof.
  intros Hup. unfold td_in_scope.
  by rewrite (selected_updated _ _ (project_in_scope ref_dt ref_dn) _ _ _ Hup).
Qed.

(** X10 -- the last call wins: [update_timesheet_logs] with one value and
    then, for the same reference, with another leaves the three tables as
    the second call alone does; in particular a repeated call changes no
    table. *)
Theorem update_timesheet_logs_last_write
    (row_order : list call → list string → list string)
    (ref_dt ref_dn : string) (b1 b2 : Z) (s s1 s2 s2' : db) :
  complete row_order →
  update_timesheet_logs row_order ref_dt ref_dn b1 s = Ok (tt, s1) →
  update_timesheet_logs row_order ref_dt ref_dn b2 s1 = Ok (tt, s2) →
  update_timesheet_logs row_order ref_dt ref_dn b2 s = Ok (tt, s2') →
  projects s2 = projects s2' ∧
  tasks s2 = tasks s2' ∧
  timesheet_details s2 = timesheet_details s2'.
Proof.
  intros Hcomplete Hrun1 Hrun2 Hrun2'.
  destruct (update_timesheet_logs_tables row_order ref_dt ref_dn b1 s Hcomplete)
    as (? & Hrun & Hp1 & Ht1 & Htd1).
  rewrite Hrun1 in Hrun. injection Hrun as <-.
  destruct (update_timesheet_logs_tables row_order ref_dt ref_dn b2 s1 Hcomplete)
    as (? & Hrun & Hp2 & Ht2 & Htd2).
  rewrite Hrun2 in Hrun. injection Hrun as <-.
  destruct (update_timesheet_logs_tables row_order ref_dt ref_dn b2 s Hcomplete)
    as (? & Hrun & Hp2' & Ht2' & Htd2').
  rewrite Hrun2' in Hrun. injection Hrun as <-.
  split; [|split].
  - by apply (updated_overwrite _ _ _ _ _ _ _ _ Hp1 Hp2 Hp2').
  - apply (updated_overwrite _ _ _ _ _ _ _ _ Ht1 Ht2 Ht2'); [|done..].
    intros r. by apply (task_scope_updated _ _ b1).
  - apply (updated_overwrite _ _ _ _ _ _ _ _ Htd1 Htd2 Htd2'); [|done..].
    intros r. by apply (td_scope_updated _ _ b1).
Qed.

Lemma update_timesheet_logs_last_write_witness :
  ∃ s1 s2 s2',
    update_timesheet_logs (λ _ names, names) "Project Type" "Internal" 0
      Fixtures.billable_db = Ok (tt, s1) ∧
    update_timesheet_logs (λ _ names, names) "Project Type" "Internal" 1 s1
      = Ok (tt, s2) ∧
    update_timesheet_logs (λ _ names, names) "Project Type" "Internal" 1
      Fixtures.billable_db = Ok (tt, s2') ∧
    tasks s2 = tasks s2'.
Proof.
  eexists _, _, _.
  split; [vm_compute; reflexivity|].
  split; [vm_compute; reflexivity|].
  split; [vm_compute; reflexivity|].
  eapply (update_timesheet_logs_last_write (λ _ names, names)
            "Project Type" "Internal" 0 1 Fixtures.billable_db).
  - intros history names. reflexivity.
  - vm_compute. reflexivity.
  - vm_compute. reflexivity.
  - vm_compute. reflexivity.
Defined.

End BillableExtra.

(* ===================================================================== *)
(** * Further facts about the linked-document traversal                   *)
(* ===================================================================== *)

Module LinkedExtra.
Import Linked LinkedScope LinkedFacts.

Lemma reached_allow_listed g x y :
  tc (edge g) x y → y.1 ∈ ["Project"; "Timesheet"; "Task"].
Proof.
  induction 1 as [x y (ls & l & _ & Hvalid & _)|x z y _ _ IH]; [|done].
  by apply allow_listed.
Qed.

Lemma names_kept (docs docs' new : list node) (n : string) :
  docs' ≡ₚ docs ++ new → n ∈ map name docs → n ∈ map name docs'.
Proof.
  intros Hperm (nd & -> & Hin)%list_elem_of_fmap.
  apply list_elem_of_fmap. exists nd. split; [done|].
  rewrite Hperm. apply elem_of_app. by left.
Qed.

(** ** What one call adds to the accumulator *)

Section added.
Context (g : graph) (x : string * string).
Context (rec : string → string → option (list node) → outcome (list node * nat)).

(** What is assumed of the recursive calls: they keep the nodes they are
    given, add nodes reached from their document with the right counts,
    and return the count of their document. *)
Hypothesis rec_adds :
  ∀ d n docs ds c,
    rec d n docs = Done (ds, c) →
    (∃ new, ds ≡ₚ default [] docs ++ new ∧
            Forall (λ nd, reached g (d, n) nd ∧ counted g nd) new) ∧
    c = accepted_links (get_linked_docs g d n).

Lemma visit_link_adds ld ls l docs c docs' c' :
  (ld, ls) ∈ get_linked_docs g x.1 x.2 → l ∈ ls →
  visit_link rec ld l (docs, c) = Done (docs', c') →
  ∃ new,
    docs' ≡ₚ docs ++ new ∧
    Forall (λ nd, reached g x nd ∧ counted g nd) new ∧
    (validate_linked_doc ld = true → link_name l ∈ map name docs').
Proof.
  intros Hitem Hl. unfold visit_link.
  destruct (validate_linked_doc ld) eqn:Hvalid; simpl.
  2:{ intros [= <- <-]. exists []. by rewrite app_nil_r. }
  assert (Hedge : edge g x (ld, link_name l)) by (by exists ls, l).
  destruct (bool_decide (link_name l ∈ map name docs)) eqn:Hvisited.
  { intros [= <- <-]. exists []. rewrite app_nil_r.
    split; [done|]. split; [done|]. intros _. by apply bool_decide_eq_true in Hvisited. }
  destruct (rec ld (link_name l) (Some docs)) as [[cd k]|] eqn:Hrec; [|done].
  simpl. intros [= <- <-].
  destruct (rec_adds _ _ _ _ _ Hrec) as [(newy & Hperm & Hnewy) ->].
  set (nd := Node ld (link_name l) (link_docstatus l)
               (accepted_links (get_linked_docs g ld (link_name l)))).
  assert (Hnd : reached g x nd ∧ counted g nd) by (split; [by apply tc_once|done]).
  assert (Hname : ∀ front, link_name l ∈ map name (front ++ [nd])).
  { intros front. rewrite map_app. apply elem_of_app. right. by left. }
  destruct docs as [|nd0 docs0].
  - exists [nd]. split; [done|]. split; [by constructor|]. intros _. apply (Hname []).
  - exists (newy ++ [nd]). split; [|split].
    + rewrite Hperm. simpl. by rewrite <- app_assoc.
    + apply Forall_app. split; [|by constructor].
      eapply Forall_impl; [exact Hnewy|]. intros nd' [Hreached Hcounted].
      split; [|done]. by eapply tc_l.
    + intros _. apply Hname.
Qed.

Lemma visit_links_adds ld ls rest docs c docs' c' :
  (ld, ls) ∈ get_linked_docs g x.1 x.2 → rest ⊆ ls →
  visit_links rec ld rest (docs, c) = Done (docs', c') →
  ∃ new,
    docs' ≡ₚ docs ++ new ∧
    Forall (λ nd, reached g x nd ∧ counted g nd) new ∧
    (validate_linked_doc ld = true →
     ∀ l, l ∈ rest → link_name l ∈ map name docs').
Proof.
  intros Hitem. revert docs c.
  induction rest as [|l rest IH]; intros docs c Hrest.
  - intros [= <- <-]. exists []. rewrite app_nil_r.
    split; [done|]. split; [done|]. by intros _ l ?%elem_of_nil.
  - rewrite visit_links_cons.
    destruct (visit_link rec ld l (docs, c)) as [[docs1 c1]|] eqn:Hlink; [|done].
    simpl. intros Hrun.
    apply (visit_link_adds ld ls) in Hlink as (new1 & Hperm1 & Hnew1 & Hname1);
      [|done|apply Hrest; by left].
    apply IH in Hrun as (new2 & Hperm2 & Hnew2 & Hname2);
      [|intros l' Hl'; apply Hrest; by right].
    exists (new1 ++ new2). split; [|split].
    + by rewrite Hperm2, Hperm1, <- app_assoc.
    + by apply Forall_app.
    + intros Hvalid l' [->|Hl']%elem_of_cons; [|by apply Hname2].
      eapply names_kept; [exact Hperm2|by apply Hname1].
Qed.

Lemma visit_items_adds items docs c docs' c' :
  items ⊆ get_linked_docs g x.1 x.2 →
  visit_items rec items (docs, c) = Done (docs', c') →
  ∃ new,
    docs' ≡ₚ docs ++ new ∧
    Forall (λ nd, reached g x nd ∧ counted g nd) new ∧
    (∀ ld ls l, (ld, ls) ∈ items → validate_linked_doc ld = true → l ∈ ls →
                link_name l ∈ map name docs').
Proof.
  revert docs c. induction items as [|[ld ls] items IH]; intros docs c Hitems.
  - intros [= <- <-]. exists []. rewrite app_nil_r.
    split; [done|]. split; [done|]. by intros ld ls l ?%elem_of_nil.
  - rewrite visit_items_cons.
    destruct (visit_links rec ld ls (docs, c)) as [[docs1 c1]|] eqn:Hlinks; [|done].
    simpl. intros Hrun.
    apply (visit_links_adds ld ls) in Hlinks as (new1 & Hperm1 & Hnew1 & Hname1);
      [|apply Hitems; by left|done].
    apply IH in Hrun as (new2 & Hperm2 & Hnew2 & Hname2);
      [|intros item Hitem; apply Hitems; by right].
    exists (new1 ++ new2). split; [|split].
    + by rewrite Hperm2, Hperm1, <- app_assoc.
    + by apply Forall_app.
    + intros ld' ls' l [[= -> ->]|Hin]%elem_of_cons Hvalid Hl; [|by eapply Hname2].
      eapply names_kept; [exact Hperm2|by apply Hname1].
Qed.

Lemma body_adds docs ds c :
  body rec g x.1 x.2 docs = Done (ds, c) →
  ∃ new,
    ds ≡ₚ default [] docs ++ new ∧
    Forall (λ nd, reached g x nd ∧ counted g nd) new ∧
    (∀ ld ls l, (ld, ls) ∈ get_linked_docs g x.1 x.2 →
                validate_linked_doc ld = true → l ∈ ls →
                link_name l ∈ map name ds).
Proof.
  unfold body.
  destruct (visit_items rec _ _) as [[docs1 c1]|] eqn:Hitems; [|done].
  simpl. intros [= <- <-].
  apply visit_items_adds in Hitems as (new & Hperm & Hnew & Hnames); [|done].
  exists new. split; [by rewrite sort_by_link_count_perm|]. split; [done|].
  intros ld ls l Hitem Hvalid Hl.
  apply (names_kept docs1 _ []);
    [by rewrite app_nil_r, sort_by_link_count_perm|by eapply Hnames].
Qed.

End added.

Lemma get_linked_documents_adds (fuel : nat) g d n docs ds c :
  get_linked_documents fuel g d n docs = Done (ds, c) →
  ∃ new,
    ds ≡ₚ default [] docs ++ new ∧
    Forall (λ nd, reached g (d, n) nd ∧ counted g nd) new ∧
    (∀ ld ls l, (ld, ls) ∈ get_linked_docs g d n →
                validate_linked_doc ld = true → l ∈ ls →
                link_name l ∈ map name ds).
Proof.
  revert d n docs ds c. induction fuel as [|fuel IH]; intros d n docs ds c; [done|].
  simpl. apply (body_adds g (d, n)).
  intros d' n' docs' ds' c' Hrun. split.
  - destruct (IH _ _ _ _ _ Hrun) as (new & Hperm & Hnew & _). by exists new.
  - by destruct (get_linked_documents_result _ _ _ _ _ _ _ Hrun).
Qed.

(** ** Main results *)

(** X11 -- what [get_linked_documents] returns is the list it was given,
    with nothing dropped, plus nodes each describing a document reached
    from the given one through one or more allow-listed links, and so of
    an allow-listed doctype: no unrelated document is ever added. *)
Theorem get_linked_documents_reached (fuel : nat) (g : graph)
    (doctype name : string) (docs : option (list node))
    (ds : list node) (count : nat) :
  get_linked_documents fuel g doctype name docs = Done (ds, count) →
  ∃ new,
    ds ≡ₚ default [] docs ++ new ∧
    Forall (λ nd, reached g (doctype, name) nd ∧
                  Linked.doctype nd ∈ ["Project"; "Timesheet"; "Task"]) new.
Proof.
  intros (new & Hperm & Hnew & _)%get_linked_documents_adds.
  exists new. split; [done|].
  eapply Forall_impl; [exact Hnew|]. intros nd [Hreached _]. split; [done|].
  apply (reached_allow_listed g _ _ Hreached).
Qed.

Lemma get_linked_documents_reached_witness :
  ∃ new,
    [Node "Task" "T0" 0 0; Node "Timesheet" "TS1" 1 0; Node "Task" "T1" 0 1]
      ≡ₚ [] ++ new ∧
    Forall (λ nd, reached Fixtures.index_nested_second ("Project", "P1") nd ∧
                  Linked.doctype nd ∈ ["Project"; "Timesheet"; "Task"]) new.
Proof.
  apply (get_linked_documents_reached 3 Fixtures.index_nested_second
           "Project" "P1" None _ 2).
  reflexivity.
Defined.

(** X12 -- the counts in the returned list are right whenever those in
    the list given are: every node added carries as [link_count] the
    number of allow-listed direct links of the document it describes. *)
Theorem get_linked_documents_counted (fuel : nat) (g : graph)
    (doctype name : string) (docs : option (list node))
    (ds : list node) (count : nat) :
  get_linked_documents fuel g doctype name docs = Done (ds, count) →
  Forall (counted g) (default [] docs) →
  Forall (counted g) ds.
Proof.
  intros (new & Hperm & Hnew & _)%get_linked_documents_adds Hgiven.
  rewrite Hperm. apply Forall_app. split; [done|].
  eapply Forall_impl; [exact Hnew|]. by intros nd [_ Hcounted].
Qed.

Lemma get_linked_documents_counted_witness :
  Forall (counted Fixtures.index_nested_second)
    [Node "Task" "T0" 0 0; Node "Timesheet" "TS1" 1 0; Node "Task" "T1" 0 1].
Proof.
  apply (get_linked_documents_counted 3 Fixtures.index_nested_second
           "Project" "P1" None _ 2).
  - reflexivity.
  - constructor.
Defined.

(** X13 -- every allow-listed direct link of the given document is
    represented in the returned list by a node of its name. *)
Theorem get_linked_documents_direct_links (fuel : nat) (g : graph)
    (doctype name : string) (docs : option (list node))
    (ds : list node) (count : nat) :
  get_linked_documents fuel g doctype name docs = Done (ds, count) →
  ∀ link_doctype link_names l,
    (link_doctype, link_names) ∈ get_linked_docs g doctype name →
    link_doctype ∈ ["Project"; "Timesheet"; "Task"] →
    l ∈ link_names →
    ∃ nd, nd ∈ ds ∧ Linked.name nd = link_name l.
Proof.
  intros (new & _ & _ & Hnames)%get_linked_documents_adds
         link_doctype link_names l Hitem Hallowed%allow_listed Hl.
  by apply visited_by_name, (Hnames link_doctype link_names).
Qed.

Lemma get_linked_documents_direct_links_witness :
  ∃ nd,
    nd ∈ [Node "Task" "T0" 0 0; Node "Timesheet" "TS1" 1 0; Node "Task" "T1" 0 1] ∧
    Linked.name nd = "T1".
Proof.
  apply (get_linked_documents_direct_links 3 Fixtures.index_nested_second
           "Project" "P1" None _ 2 eq_refl
           "Task" [Link "T0" 0; Link "T1" 0] (Link "T1" 0)).
  - left.
  - do 2 right. left.
  - right. left.
Defined.

End LinkedExtra.

(* ===================================================================== *)
(** * The direct links of one call                                        *)
(* ===================================================================== *)

Module LinkedVisits.
Import Linked LinkedScope LinkedFacts LinkedExtra.

(** ** The loops, link by link *)











(** ** No node is appended for a name already in the list *)

Section fresh.
Context (rec : string → string → option (list node) → outcome (list node * nat)).
Hypothesis rec_fresh :
  ∀ d n docs ds c,
    rec d n docs = Done (ds, c) →
    ∃ new, ds ≡ₚ default [] docs ++ new ∧
           Forall (λ nd, name nd ∉ map name (default [] docs)) new.




End fresh.


(** ** Records of other doctypes play no part *)



(** ** Main result *)



End LinkedVisits.
